(** * go-spring: scoped context store, process-local cache, command-line codec
      and replay matching engine

    A shallow embedding of
    - [spring-base/knife/knife.go]  (package [knife]),
    - [spring-base/apcu/apcu.go]    (package [apcu]),
    together with the two collaborators of which the repository only holds
    callers and tests: the command-line codec of package [cast] and the
    matching engine of package [replayer].

    Go state is passed explicitly.  A [*sync.Map] attached to a context is a
    location in a heap of maps, so that two contexts that carry the same
    pointer observe each other's writes.  The package-level [cache] of [apcu]
    and the replay store are fields of a world record. *)

From Stdlib Require Import ZArith NArith Lia List Sorting.Sorted.
From Stdlib Require Strings.Byte.
From stdpp Require Import gmap strings list fin_maps sorting.

Local Open Scope Z_scope.

(* ===================================================================== *)
(** ** Go values held in an [interface{}] *)
(* ===================================================================== *)

(** The part of Go's type language that [apcu.load] can tell apart through
    [reflect]: the identity of a type and whether its kind is [String]. *)
Inductive GoType : Type :=
| TString
| TInt
| TFloat64
| TBool
| TNamed (name : string) (underlying : GoType)
| TPtr (elem : GoType)
| TStruct (name : string)
| TReflectValue.

#[global] Instance GoType_eq_dec : EqDecision GoType.
Proof.
  unfold EqDecision, Decision.
  decide equality; apply String.string_dec.
Defined.

(** [t.Kind() == reflect.String] *)
Fixpoint kindIsString (t : GoType) : bool :=
  match t with
  | TString => true
  | TNamed _ u => kindIsString u
  | _ => false
  end.

(** The payload of a value, without its type. *)
Inductive Data : Type :=
| DStr (s : string)
| DInt (z : Z)
| DBool (b : bool)
| DRef (addr : N)
| DObj (repr : string).

(** An [interface{}] value, split the way the type switch of [apcu.load]
    splits it.  A [reflect.Value] comes in three sorts, which [reflect]
    treats differently: one that holds a value and can be the source of a
    [Set] (what [reflect.ValueOf] and [reflect.New(t).Elem()] give), the zero
    [reflect.Value], on which [Type] panics, and one that holds a value read
    through an unexported struct field, which [Set] refuses with a panic. *)
Inductive Value : Type :=
| VNil                               (* the nil interface *)
| VString (s : string)               (* dynamic type [string] *)
| VReflect (t : GoType) (d : Data)   (* a [reflect.Value] wrapping a [t] *)
| VOther (t : GoType) (d : Data)     (* any other dynamic type [t] *)
| VReflectZero                       (* the zero [reflect.Value] *)
| VReflectRO (t : GoType) (d : Data).
                   (* a [reflect.Value] wrapping a [t], read through an
                      unexported field *)

(** The dynamic type of a non-nil interface value. *)
Definition dynType (v : Value) : option GoType :=
  match v with
  | VNil => None
  | VString _ => Some TString
  | VReflect _ _ | VReflectZero | VReflectRO _ _ => Some TReflectValue
  | VOther t _ => Some t
  end.

(** The types of the values that [VOther] stands for: every type but
    [string] and [reflect.Value], which have constructors of their own. *)
Definition other_type (t : GoType) : Prop := t ≠ TString ∧ t ≠ TReflectValue.

(** Go's [error]; [None] is the nil error. *)
Inductive error : Type :=
| ErrKnifeUninitialized                (* "knife uninitialized" *)
| ErrDuplicateKey (key : string)       (* "duplicate key %s" *)
| ErrSessionID                         (* no session id bound in the context *)
| ErrOutNotPtr                         (* "out value should be ptr and not nil" *)
| ErrJSON (src : string) (t : GoType)  (* json.Unmarshal failed *)
| ErrTypeNotMatch (t : GoType)         (* "type not match %s" *)
| ErrInvalidSession                    (* Store of a session with an empty id *)
| ErrNotFound (what : string)
| ErrMalformed (reason : string).

(* ===================================================================== *)
(** ** Iterating over a [sync.Map] *)
(* ===================================================================== *)

(** [m.Range(f)] over the entries in the order the map yields them: the
    visitor is a closure with a state of its own; it is given every entry
    in turn until it returns [false]. *)
Fixpoint Range_list {S V : Type} (f : S → string → V → S * bool) (s : S)
  (entries : list (string * V)) : S :=
  match entries with
  | [] => s
  | (key, value) :: entries' =>
      let '(s', continue) := f s key value in
      if continue then Range_list f s' entries' else s'
  end.



(* ===================================================================== *)
(** ** Package knife *)
(* ===================================================================== *)

Module knife.

(** A [sync.Map] as used by knife: string keys, interface values. *)
Abbreviation SyncMap := (gmap string Value).

(** Every [*sync.Map] is a location of the heap. *)
Abbreviation loc := nat.
Abbreviation Heap := (gmap loc (gmap string Value)).

(** The store a pointer refers to; a [sync.Map] starts out empty. *)
Definition deref (h : Heap) (l : loc) : SyncMap := default ∅ (h !! l).

(** Keys of [context.WithValue].  [ctxKey] is knife's private key of type
    [ctxKeyType]; no other package can build it. *)
Inductive CtxKey : Type :=
| ctxKey
| UserKey (name : string).

Inductive CtxVal : Type :=
| CStore (m : loc)      (* a [*sync.Map] *)
| CUser (v : Value).

Inductive Context : Type :=
| Background
| WithValue (parent : Context) (k : CtxKey) (v : CtxVal).

#[global] Instance CtxKey_eq_dec : EqDecision CtxKey.
Proof. solve_decision. Defined.

(** [ctx.Value(k)]: the innermost binding wins. *)
Fixpoint Value_of (ctx : Context) (k : CtxKey) : option CtxVal :=
  match ctx with
  | Background => None
  | WithValue parent k' v =>
      if decide (k' = k) then Some v else Value_of parent k
  end.

(** [m, ok := ctx.Value(ctxKey)] asserted to be a [*sync.Map]; [None] is
    [ok = false]. *)
Definition cache (ctx : Context) : option loc :=
  match Value_of ctx ctxKey with
  | Some (CStore m) => Some m
  | _ => None
  end.

(** [new(sync.Map)] *)
Definition new_Map (h : Heap) : loc * Heap :=
  let l := fresh (dom h) in (l, <[l := ∅]> h).

Definition New (ctx : Context) (h : Heap) : Context * bool * Heap :=
  match cache ctx with
  | Some _ => (ctx, true, h)
  | None =>
      let '(l, h') := new_Map h in
      (WithValue ctx ctxKey (CStore l), false, h')
  end.

(** [m.Load(key)] *)
Definition sm_Load (m : SyncMap) (key : string) : Value * bool :=
  match m !! key with
  | Some v => (v, true)
  | None => (VNil, false)
  end.

(** [m.LoadOrStore(key, val)] *)
Definition sm_LoadOrStore (m : SyncMap) (key : string) (val : Value)
  : Value * bool * SyncMap :=
  match m !! key with
  | Some v => (v, true, m)
  | None => (val, false, <[key := val]> m)
  end.

Definition Get (ctx : Context) (key : string) (h : Heap) : Value * bool :=
  match cache ctx with
  | Some m => sm_Load (deref h m) key
  | None => (VNil, false)
  end.

Definition Set_ (ctx : Context) (key : string) (val : Value) (h : Heap)
  : option error * Heap :=
  match cache ctx with
  | None => (Some ErrKnifeUninitialized, h)
  | Some m =>
      let '(_, loaded, s) := sm_LoadOrStore (deref h m) key val in
      if loaded then (Some (ErrDuplicateKey key), h)
      else (None, <[m := s]> h)
  end.

Definition Delete (ctx : Context) (key : string) (h : Heap) : Heap :=
  match cache ctx with
  | Some m => <[m := delete key (deref h m)]> h
  | None => h
  end.

(** The [for _, key := range keys] loop of [Copy]. *)
Fixpoint copy_keys (m : SyncMap) (dest : Context) (keys : list string)
  (h : Heap) : option error * Heap :=
  match keys with
  | [] => (None, h)
  | key :: keys' =>
      match sm_Load m key with
      | (v, true) =>
          match Set_ dest key v h with
          | (Some err, h') => (Some err, h')
          | (None, h') => copy_keys m dest keys' h'
          end
      | (_, false) => copy_keys m dest keys' h
      end
  end.

(** [Copy]; a [nil] context is [None]. *)
Definition Copy (src : Context) (keys : list string) (h : Heap)
  : option Context * option error * Heap :=
  match cache src with
  | None => (None, None, h)
  | Some ml =>
      let m := deref h ml in
      let '(dest, _, h1) := New Background h in
      match keys with
      | [] =>
          match cache dest with
          | Some c =>
              (Some dest, None,
               <[c := map_fold (λ k v s, <[k := v]> s) (deref h1 c) m]> h1)
          | None => (Some dest, None, h1)
          end
      | _ =>
          match copy_keys m dest keys h1 with
          | (Some err, h2) => (None, Some err, h2)
          | (None, h2) => (Some dest, None, h2)
          end
      end
  end.

(** The keys of [keys] that a store binds, with their repetitions. *)
Definition present (m : SyncMap) (keys : list string) : list string :=
  filter (λ k, is_Some (m !! k)) keys.

(** [Range] hands every key and value of the store of the context to the
    visitor; the result is the final state of the visitor. *)
Definition Range {S : Type} (ctx : Context) (f : S → string → Value → S * bool)
  (s : S) (h : Heap) : S :=
  match cache ctx with
  | Some m => Range_list f s (map_to_list (deref h m))
  | None => s
  end.

(** A context derived from [ctx] by a chain of [context.WithValue] calls of
    other packages, whose keys are never knife's [ctxKey]. *)
Fixpoint with_values (ctx : Context) (bindings : list (string * Value))
  : Context :=
  match bindings with
  | [] => ctx
  | (name, v) :: bindings' =>
      with_values (WithValue ctx (UserKey name) (CUser v)) bindings'
  end.

End knife.

(* ===================================================================== *)
(** ** Packages fastdev and replayer *)
(* ===================================================================== *)

Module fastdev.

(** Name of the protocol under which [apcu] records its traffic. *)
Definition APCU : string := "APCU".

(** Modelled from the spec: the [Action] and [Session] structs of package
    [fastdev] are missing from the sources; the fields are the ones the
    test builds.  A [Message] wraps a pure function that is evaluated at
    most once, so it is its text. *)
Record Action : Type := {
  Protocol : string;
  Timestamp : Z;
  Request : string;
  Response : string
}.

Record Session : Type := {
  Session_ID : string;
  Session_Timestamp : Z;
  Inbound : option Action;
  Actions : list Action
}.

(** Modelled from the spec: the four capabilities of a protocol plugin.
    A flatten operation yields a field map or fails ([None]). *)
Record ProtocolPlugin : Type := {
  ShouldDiff : bool;
  GetLabel : string → string;
  FlatRequest : string → option (gmap string string);
  FlatResponse : string → option (gmap string string)
}.

(** Modelled from the spec: the registry; the last registration of a name
    wins. *)
Definition RegisterProtocol (name : string) (p : ProtocolPlugin)
  (reg : gmap string ProtocolPlugin) : gmap string ProtocolPlugin :=
  <[name := p]> reg.

End fastdev.

Module replayer.
Import fastdev.

(** The ambient session id is carried by the scoped context store under a
    reserved key. *)
Definition sessionIDKey : string := "::session-id::".

(** Modelled from the spec: [replayer.SetSessionID], missing from the
    sources, binds the session id in the scoped store of the context. *)
Definition SetSessionID (ctx : knife.Context) (sessionID : string)
  (h : knife.Heap) : option error * knife.Heap :=
  knife.Set_ ctx sessionIDKey (VString sessionID) h.

(** Modelled from the spec: [replayer.GetSessionID], missing from the
    sources, resolves the session id bound in the context; none bound is a
    usage error. *)
Definition GetSessionID (ctx : knife.Context) (h : knife.Heap)
  : string * option error :=
  match knife.Get ctx sessionIDKey h with
  | (VString sessionID, true) => (sessionID, None)
  | _ => ("", Some ErrSessionID)
  end.

(** Modelled from the spec: a stored session and the consumption markers
    of its outbound Actions, kept as the set of consumed positions. *)
Record StoredSession : Type := {
  stored : Session;
  consumed : gset nat
}.

Abbreviation SessionStore := (gmap string StoredSession).

(** Modelled from the spec: [replayer.Store] validates the id and installs
    the session with every consumption marker reset; a later Store of the
    same id replaces the earlier one. *)
Definition Store (session : Session) (st : SessionStore)
  : option error * SessionStore :=
  if decide (Session_ID session = "") then (Some ErrInvalidSession, st)
  else (None, <[Session_ID session := {| stored := session; consumed := ∅ |}]> st).

(** Does a recorded Action answer the request?  Same protocol, same label,
    and, when the plugin asks for a diff, equal flattened requests. *)
Definition matches (protocolName : string) (p : ProtocolPlugin)
  (label : string) (flat : option (gmap string string)) (a : Action) : bool :=
  bool_decide (Protocol a = protocolName)
  && bool_decide (GetLabel p (Request a) = label)
  && (if ShouldDiff p then
        match flat, FlatRequest p (Request a) with
        | Some f, Some g => bool_decide (f = g)
        | _, _ => false
        end
      else true).

(** The unconsumed Actions that answer the request, with their position.
    The label and the flattened request are computed once per call. *)
Definition candidates (protocolName : string) (p : ProtocolPlugin)
  (requestText : string) (ss : StoredSession) : list (nat * Action) :=
  let label := GetLabel p requestText in
  let flat := FlatRequest p requestText in
  filter (λ ia, (fst ia ∉ consumed ss)
                ∧ matches protocolName p label flat (snd ia) = true)
         (imap pair (Actions (stored ss))).


(** The candidate with the smallest timestamp; the earlier position wins
    among equal timestamps. *)
Fixpoint earliest (l : list (nat * Action)) : option (nat * Action) :=
  match l with
  | [] => None
  | x :: l' =>
      match earliest l' with
      | None => Some x
      | Some y =>
          if Timestamp (snd x) <=? Timestamp (snd y) then Some x else Some y
      end
  end.

(** The outcome of a replay call: the position and the Action served, or
    the error. *)
Abbreviation Outcome := (sum error (nat * Action)).

(** Modelled from the spec: [replayer.ReplayAction].  The session id is
    resolved from the context, then the stored session, then the plugin;
    the earliest unconsumed Action that answers the request is marked
    consumed and served. *)
Definition ReplayAction (reg : gmap string ProtocolPlugin)
  (ctx : knife.Context) (h : knife.Heap)
  (protocolName : string) (requestText : string) (st : SessionStore)
  : Outcome * SessionStore :=
  match GetSessionID ctx h with
  | (_, Some err) => (inl err, st)
  | (sessionID, None) =>
      match st !! sessionID with
      | None => (inl (ErrNotFound "session"), st)
      | Some ss =>
          match reg !! protocolName with
          | None => (inl (ErrNotFound "protocol"), st)
          | Some p =>
              match earliest (candidates protocolName p requestText ss) with
              | None => (inl (ErrNotFound "action"), st)
              | Some (i, a) =>
                  (inr (i, a),
                   <[sessionID := {| stored := stored ss;
                                     consumed := {[i]} ∪ consumed ss |}]> st)
              end
          end
      end
  end.

(** A run of sequential replay calls, each with its context, protocol
    name and request text.  Every outcome is paired with the session id
    its call resolved. *)
Fixpoint replay_all (reg : gmap string ProtocolPlugin) (h : knife.Heap)
  (calls : list (knife.Context * string * string)) (st : SessionStore)
  : list (string * Outcome) * SessionStore :=
  match calls with
  | [] => ([], st)
  | (ctx, protocolName, requestText) :: calls' =>
      let '(o, st1) := ReplayAction reg ctx h protocolName requestText st in
      let '(os, st2) := replay_all reg h calls' st1 in
      ((fst (GetSessionID ctx h), o) :: os, st2)
  end.




End replayer.

(* ===================================================================== *)
(** ** Package apcu *)
(* ===================================================================== *)

Module apcu.

(** [time.Time] in nanoseconds since the zero time. *)
Abbreviation Time := Z.
Definition IsZero (t : Time) : bool := t =? 0.
(** [t.After(u)] *)
Definition After (t u : Time) : bool := u <? t.

(** Recording traffic flags an empty value with this text. *)
Definition EmptyValue : string := "::empty::".

Record cacheItem : Type := {
  source : Value;
  expireAt : Time
}.

(** An Action handed to [recorder.RecordAction]. *)
Record RecordedAction : Type := {
  rec_Protocol : string;
  rec_Request : string;
  rec_Response : Value
}.

(** The process-wide state the package reads and writes: the stores behind
    the contexts, the package-level [cache], the replay and record mode
    flags and what the recorder was handed. *)
Record World : Type := {
  heap : knife.Heap;
  cache : gmap string cacheItem;
  ReplayMode : bool;
  RecordMode : bool;
  recorded : list RecordedAction
}.

Definition with_cache (c : gmap string cacheItem) (w : World) : World :=
  {| heap := heap w; cache := c; ReplayMode := ReplayMode w;
     RecordMode := RecordMode w; recorded := recorded w |}.

(** [recorder.RecordAction]: the recorder is handed the Action. *)
Definition RecordAction (a : RecordedAction) (w : World) : World :=
  {| heap := heap w; cache := cache w; ReplayMode := ReplayMode w;
     RecordMode := RecordMode w; recorded := recorded w ++ [a] |}.

Definition getKey (ctx : knife.Context) (key : string) (w : World)
  : string * option error :=
  if ReplayMode w then
    match replayer.GetSessionID ctx (heap w) with
    | (_, Some err) => ("", Some err)
    | (sessionID, None) => (sessionID +:+ key, None)
    end
  else (key, None).

(** The [out] argument as [reflect] sees it. *)
Inductive OutArg : Type :=
| OutNil                     (* the nil interface *)
| OutNotPtr (t : GoType)     (* a value that is not a pointer *)
| OutNilPtr (elem : GoType)  (* a nil [*elem] *)
| OutPtr (elem : GoType).    (* a non-nil [*elem] *)

(** What a Load returns, and what it wrote through [out].  When the call
    panics instead of returning, [panic] holds the message, and [ok] and
    [err] are the named results as the deferred function of [Load] finds
    them. *)
Record LoadResult : Type := {
  ok : bool;
  err : option error;
  written : option (GoType * Data);
  panic : option string
}.

Definition miss : LoadResult :=
  {| ok := false; err := None; written := None; panic := None |}.
Definition hit (t : GoType) (d : Data) : LoadResult :=
  {| ok := true; err := None; written := Some (t, d); panic := None |}.
Definition fail (e : error) : LoadResult :=
  {| ok := false; err := Some e; written := None; panic := None |}.
Definition panicking (message : string) : LoadResult :=
  {| ok := false; err := None; written := None; panic := Some message |}.

Section WithJSON.

(** [json.Unmarshal([]byte(source), new(T))]: the decoded value, or
    [None] when the text does not decode into a [T]. *)
Variable Unmarshal : string → GoType → option Data.

Definition load (key : string) (out : OutArg) (now : Time)
  (c : gmap string cacheItem) : LoadResult * gmap string cacheItem :=
  match c !! key with
  | None => (miss, c)
  | Some item =>
      match source item with
      | VNil => (miss, c)
      | src =>
          if negb (IsZero (expireAt item)) && After now (expireAt item)
          then (miss, <[key := {| source := VNil; expireAt := expireAt item |}]> c)
          else
            match out with
            | OutPtr elem =>
                match src with
                | VString s =>
                    match Unmarshal s elem with
                    | None =>
                        if kindIsString elem then (hit elem (DStr s), c)
                        else (fail (ErrJSON s elem), c)
                    | Some d =>
                        (hit elem d,
                         <[key := {| source := VReflect elem d;
                                     expireAt := expireAt item |}]> c)
                    end
                | VReflect t d =>
                    if decide (elem = t) then (hit t d, c)
                    else (fail (ErrTypeNotMatch elem), c)
                | VReflectZero =>
                    (* [source.Type()] on the zero Value *)
                    (panicking
                       "reflect: call of reflect.Value.Type on zero Value", c)
                | VReflectRO t d =>
                    (* [outVal.Elem().Set(source)] *)
                    if decide (elem = t)
                    then (panicking
                            "reflect: reflect.Value.Set using value obtained using unexported field",
                          c)
                    else (fail (ErrTypeNotMatch elem), c)
                | VOther t d =>
                    if decide (t = elem) then (hit t d, c)
                    else (fail (ErrTypeNotMatch elem), c)
                | VNil => (miss, c)
                end
            | _ => (fail ErrOutNotPtr, c)
            end
      end
  end.

(** The deferred function of [Load]: with no error and record mode on,
    the lookup is recorded under the resolved key.  It runs when [load]
    panics too, and then finds [ok = false] and a nil [err]. *)
Definition record_load (key : string) (r : LoadResult) (w : World) : World :=
  match err r with
  | None =>
      if RecordMode w then
        RecordAction
          {| rec_Protocol := fastdev.APCU;
             rec_Request := key;
             rec_Response :=
               match ok r, written r with
               | true, Some (t, d) => VOther (TPtr t) d
               | _, _ => VString EmptyValue
               end |} w
      else w
  | Some _ => w
  end.

Definition Load (ctx : knife.Context) (key : string) (out : OutArg)
  (now : Time) (w : World) : LoadResult * World :=
  match getKey ctx key w with
  | (key', Some e) => (fail e, record_load key' (fail e) w)
  | (key', None) =>
      let '(r, c) := load key' out now (cache w) in
      (r, record_load key' r (with_cache c w))
  end.

End WithJSON.

Record StoreArg : Type := { arg_TTL : Z }.

Definition StoreOption : Type := StoreArg → StoreArg.

(** [TTL] sets the time to live of the key. *)
Definition TTL (ttl : Z) : StoreOption := λ _, {| arg_TTL := ttl |}.

Definition Store (ctx : knife.Context) (key : string) (val : Value)
  (opts : list StoreOption) (now : Time) (w : World) : option error * World :=
  let arg := foldl (λ arg opt, opt arg) {| arg_TTL := 0 |} opts in
  let expireAt := if 0 <? arg_TTL arg then now + arg_TTL arg else 0 in
  match getKey ctx key w with
  | (_, Some e) => (Some e, w)
  | (key', None) =>
      (None,
       with_cache (<[key' := {| source := val; expireAt := expireAt |}]> (cache w)) w)
  end.

Definition Delete (ctx : knife.Context) (key : string) (w : World) : World :=
  let '(key', _) := getKey ctx key w in
  with_cache (delete key' (cache w)) w.

(** What a [Range] visitor that never stops is shown. *)
Definition Range (w : World) : gmap string Value := source <$> cache w.


End apcu.

(* ===================================================================== *)
(** ** Package cast: the command-line codec *)
(* ===================================================================== *)

(** Package [cast] is missing from the sources; its two functions are
    modelled below.  The values are joined with a space; a value that is
    empty or holds the separator, the quote, a backslash or a byte that is
    not printable is written between double quotes, with the quote and the
    backslash preceded by a backslash and every byte that is not printable
    written as backslash, x and two hexadecimal digits.  The parser fails on
    an escape it does not know, on a quote that is not closed and on a
    missing value. *)
Module cast.

Abbreviation byte := Byte.byte.

(** A Go string: a sequence of bytes. *)
Abbreviation bytes := (list Byte.byte).

#[global] Instance byte_eq_dec : EqDecision Byte.byte := Byte.byte_eq_dec.

Definition separator : byte := Byte.x20.   (* space *)
Definition quote : byte := Byte.x22.       (* double quote *)
Definition backslash : byte := Byte.x5c.
Definition letter_x : byte := Byte.x78.

(** Printable ASCII, the space included. *)
Definition printable (b : byte) : bool :=
  ((32 <=? Byte.to_N b) && (Byte.to_N b <=? 126))%N.

(** A byte that a value can show as it is, outside quotes. *)
Definition plain (b : byte) : bool :=
  printable b
  && negb (bool_decide (b = separator))
  && negb (bool_decide (b = quote))
  && negb (bool_decide (b = backslash)).

(** The hexadecimal digit of a number below 16. *)
Definition hex_digit (n : N) : byte :=
  default Byte.x30
    (Byte.of_N (if (n <? 10)%N then 48 + n else 87 + n)%N).

(** The number a hexadecimal digit stands for. *)
Definition hex_value (b : byte) : option N :=
  let n := Byte.to_N b in
  if ((48 <=? n) && (n <=? 57))%N then Some (n - 48)%N
  else if ((97 <=? n) && (n <=? 102))%N then Some (n - 87)%N
  else None.

(** One byte of a value between quotes. *)
Definition escape_byte (b : byte) : bytes :=
  if bool_decide (b = quote) then [backslash; quote]
  else if bool_decide (b = backslash) then [backslash; backslash]
  else if printable b then [b]
  else [backslash; letter_x;
        hex_digit (Byte.to_N b / 16)%N; hex_digit (Byte.to_N b mod 16)%N].

Definition escape (v : bytes) : bytes := concat (map escape_byte v).

(** A value as it stands in the command line: as it is when it is not
    empty and all its bytes are plain, between quotes otherwise. *)
Definition quote_value (v : bytes) : bytes :=
  match v with
  | [] => [quote; quote]
  | _ => if forallb plain v then v else quote :: escape v ++ [quote]
  end.

(** Modelled from the spec: [cast.ToCommandLine], missing from the sources,
    joins the values with the separator, each escaped reversibly. *)
Fixpoint ToCommandLine (values : list bytes) : bytes :=
  match values with
  | [] => []
  | [v] => quote_value v
  | v :: values' => quote_value v ++ separator :: ToCommandLine values'
  end.

(** Where the parser stands; the bytes of the current value are kept in
    reverse. *)
Inductive pstate : Type :=
| AtValue                          (* a value has to start here *)
| InBare (acc : bytes)             (* inside a value without quotes *)
| InQuoted (acc : bytes)           (* between quotes *)
| InEscape (acc : bytes)           (* after a backslash *)
| InHex1 (acc : bytes)             (* after backslash x *)
| InHex2 (acc : bytes) (hi : N)    (* after the first hex digit *)
| AfterQuoted.                     (* after the closing quote *)

(** One byte of input; [vals] holds the finished values in reverse. *)
Definition step (st : pstate) (vals : list bytes) (b : byte)
  : error + pstate * list bytes :=
  match st with
  | AtValue =>
      if bool_decide (b = quote) then inr (InQuoted [], vals)
      else if plain b then inr (InBare [b], vals)
      else inl (ErrMalformed "value expected")
  | InBare acc =>
      if bool_decide (b = separator) then inr (AtValue, rev acc :: vals)
      else if plain b then inr (InBare (b :: acc), vals)
      else inl (ErrMalformed "byte needs quoting")
  | InQuoted acc =>
      if bool_decide (b = quote) then inr (AfterQuoted, rev acc :: vals)
      else if bool_decide (b = backslash) then inr (InEscape acc, vals)
      else inr (InQuoted (b :: acc), vals)
  | InEscape acc =>
      if bool_decide (b = quote) then inr (InQuoted (quote :: acc), vals)
      else if bool_decide (b = backslash) then inr (InQuoted (backslash :: acc), vals)
      else if bool_decide (b = letter_x) then inr (InHex1 acc, vals)
      else inl (ErrMalformed "unknown escape")
  | InHex1 acc =>
      match hex_value b with
      | Some hi => inr (InHex2 acc hi, vals)
      | None => inl (ErrMalformed "hex digit expected")
      end
  | InHex2 acc hi =>
      match hex_value b with
      | Some lo =>
          match Byte.of_N (16 * hi + lo)%N with
          | Some c => inr (InQuoted (c :: acc), vals)
          | None => inl (ErrMalformed "hex digit expected")
          end
      | None => inl (ErrMalformed "hex digit expected")
      end
  | AfterQuoted =>
      if bool_decide (b = separator) then inr (AtValue, vals)
      else inl (ErrMalformed "separator expected")
  end.

(** The end of the input. *)
Definition finish (st : pstate) (vals : list bytes) : error + list bytes :=
  match st with
  | AtValue => inl (ErrMalformed "value expected")
  | InBare acc => inr (rev (rev acc :: vals))
  | AfterQuoted => inr (rev vals)
  | InQuoted _ | InEscape _ | InHex1 _ | InHex2 _ _ =>
      inl (ErrMalformed "unbalanced quote")
  end.

Fixpoint run (st : pstate) (vals : list bytes) (text : bytes)
  : error + list bytes :=
  match text with
  | [] => finish st vals
  | b :: text' =>
      match step st vals b with
      | inl e => inl e
      | inr (st', vals') => run st' vals' text'
      end
  end.

(** Modelled from the spec: [cast.ParseCommandLine], missing from the
    sources, reads the values back or fails with a parse error; the empty
    text is the empty list. *)
Definition ParseCommandLine (text : bytes) : error + list bytes :=
  match text with
  | [] => inr []
  | _ => run AtValue [] text
  end.

End cast.

(* ===================================================================== *)
(** ** Concrete contexts, stores and worlds used in the examples *)
(* ===================================================================== *)

Module Fixtures.
Import knife apcu.

(** A context that carries the store at location 0. *)
Definition ctx0 : Context := WithValue Background ctxKey (CStore 0%nat).
Definition heap0 : Heap := {[ 0%nat := {[ "a" := VString "x" ]} ]}.
Definition heap1 : Heap :=
  {[ 0%nat := {[ "a" := VString "x"; "b" := VString "y" ]} ]}.

(** Two call trees, bound to the session ids ["s"] and ["s1"]. *)
Definition ctxA : Context := WithValue Background ctxKey (CStore 0%nat).
Definition ctxB : Context := WithValue Background ctxKey (CStore 1%nat).
Definition heapS : Heap :=
  {[ 0%nat := {[ replayer.sessionIDKey := VString "s" ]};
     1%nat := {[ replayer.sessionIDKey := VString "s1" ]} ]}.

(** A world in replay mode with an empty cache. *)
Definition wR : World :=
  {| heap := heapS; cache := ∅; ReplayMode := true; RecordMode := false;
     recorded := [] |}.

(** A world with both modes off and a given cache. *)
Definition wOff (c : gmap string cacheItem) : World :=
  {| heap := ∅; cache := c; ReplayMode := false; RecordMode := false;
     recorded := [] |}.

(** An entry that expires at time 5. *)
Definition wExpiring : World :=
  wOff {[ "k" := {| source := VString "v"; expireAt := 5 |} ]}.

(** An entry that holds a bool and never expires. *)
Definition wBool : World :=
  wOff {[ "k" := {| source := VOther TBool (DBool true); expireAt := 0 |} ]}.

(** An entry that holds the text of a number, and the same entry with the
    number decoded into an int. *)
Definition wText : World :=
  wOff {[ "k" := {| source := VString "1"; expireAt := 0 |} ]}.
Definition wReflect : World :=
  wOff {[ "k" := {| source := VReflect TInt (DInt 1); expireAt := 0 |} ]}.

(** Replay mode with entries under the empty name and under ["a"]; the
    context [Background] binds no session id. *)
Definition wUnbound : World :=
  with_cache {[ "" := {| source := VString "e"; expireAt := 0 |};
                "a" := {| source := VString "v"; expireAt := 0 |} ]} wR.

(** Entries that hold the zero [reflect.Value] and a [reflect.Value] read
    through an unexported field. *)
Definition wZero : World :=
  wOff {[ "k" := {| source := VReflectZero; expireAt := 0 |} ]}.
Definition wUnexported : World :=
  wOff {[ "k" := {| source := VReflectRO TInt (DInt 1); expireAt := 0 |} ]}.

(** Record mode, with the entry that holds a bool. *)
Definition wRec : World :=
  {| heap := ∅;
     cache := {[ "k" := {| source := VOther TBool (DBool true); expireAt := 0 |} ]};
     ReplayMode := false; RecordMode := true; recorded := [] |}.

(** A decoder that decodes nothing. *)
Definition noJSON (s : string) (t : GoType) : option Data := None.

(** A decoder that knows one text: ["1"] decodes into an int and into a
    float64. *)
Definition tinyJSON (s : string) (t : GoType) : option Data :=
  match t with
  | TInt | TFloat64 => if bool_decide (s = "1") then Some (DInt 1) else None
  | _ => None
  end.

(** A plugin in the manner of the redis plugin of the tests: the label is
    the first four characters and requests are compared by their text. *)
Definition redisLike : fastdev.ProtocolPlugin :=
  {| fastdev.ShouldDiff := true;
     fastdev.GetLabel := λ data, String.substring 0 4 data;
     fastdev.FlatRequest := λ data, Some {[ "0" := data ]};
     fastdev.FlatResponse := λ data, Some {[ "0" := data ]} |}.

Definition registry : gmap string fastdev.ProtocolPlugin :=
  fastdev.RegisterProtocol "REDIS" redisLike ∅.

Definition action (ts : Z) (response : string) : fastdev.Action :=
  {| fastdev.Protocol := "REDIS"; fastdev.Timestamp := ts;
     fastdev.Request := "SET a 1"; fastdev.Response := response |}.

(** A session of three identical requests, recorded out of order. *)
Definition session3 : fastdev.Session :=
  {| fastdev.Session_ID := "s"; fastdev.Session_Timestamp := 1;
     fastdev.Inbound := None;
     fastdev.Actions := [action 30 "c"; action 10 "a"; action 20 "b"] |}.

(** The session of [TestReplayAction] in small: next to the three
    identical requests it holds a request of another label. *)
Definition hget : fastdev.Action :=
  {| fastdev.Protocol := "REDIS"; fastdev.Timestamp := 5;
     fastdev.Request := "HGET a"; fastdev.Response := "h" |}.

Definition session4 : fastdev.Session :=
  {| fastdev.Session_ID := "s"; fastdev.Session_Timestamp := 1;
     fastdev.Inbound := None;
     fastdev.Actions := [action 30 "c"; hget; action 10 "a"; action 20 "b"] |}.

(** The text of a Go string literal. *)
Definition text (s : string) : cast.bytes := String.list_byte_of_string s.

(** The binary value of [TestReplayAction]. *)
Definition binary : cast.bytes :=
  [Byte.x00; Byte.xc0; Byte.x0a; Byte.x09; Byte.x00; Byte.xbe; Byte.x6d;
   Byte.x06; Byte.x89; Byte.x5a; Byte.x28; Byte.x00; Byte.x0a].

End Fixtures.

(* ===================================================================== *)
(** ** Properties of package knife *)
(* ===================================================================== *)

Module KnifeFacts.
Import knife Fixtures.

Lemma deref_insert_eq (h : Heap) (l : loc) (s : SyncMap) :
  deref (<[l := s]> h) l = s.
Proof. unfold deref. by rewrite lookup_insert_eq. Qed.

Lemma deref_insert_ne (h : Heap) (l l' : loc) (s : SyncMap) :
  l ≠ l' → deref (<[l := s]> h) l' = deref h l'.
Proof. intros Hne. unfold deref. by rewrite lookup_insert_ne. Qed.

Lemma new_Map_fresh (h : Heap) : h !! fresh (dom h) = None.
Proof. apply not_elem_of_dom, is_fresh. Qed.

Lemma cache_WithValue_store (ctx : Context) (l : loc) :
  cache (WithValue ctx ctxKey (CStore l)) = Some l.
Proof. reflexivity. Qed.

Lemma Set_bound (ctx : Context) (key : string) (val v : Value) (h : Heap) (m : loc) :
  cache ctx = Some m → deref h m !! key = Some v →
  Set_ ctx key val h = (Some (ErrDuplicateKey key), h).
Proof.
  intros Hc Hk. unfold Set_, sm_LoadOrStore. by rewrite Hc, Hk.
Qed.

Lemma Set_unbound (ctx : Context) (key : string) (val : Value) (h : Heap) (m : loc) :
  cache ctx = Some m → deref h m !! key = None →
  Set_ ctx key val h = (None, <[m := <[key := val]> (deref h m)]> h).
Proof.
  intros Hc Hk. unfold Set_, sm_LoadOrStore. by rewrite Hc, Hk.
Qed.

Lemma Get_bound (ctx : Context) (key : string) (h : Heap) (m : loc) :
  cache ctx = Some m →
  Get ctx key h = sm_Load (deref h m) key.
Proof. intros Hc. unfold Get. by rewrite Hc. Qed.

(** C3. On a context with an attached store, [Set] of a key that is
    already bound returns a non-nil error (duplicate key) and changes
    nothing: the heap is the same, and [Get] still returns the value that
    was bound before. *)
Theorem Set_never_overwrites
  (ctx : Context) (key : string) (val old : Value) (h : Heap) (m : loc) :
  cache ctx = Some m →
  deref h m !! key = Some old →
  Set_ ctx key val h = (Some (ErrDuplicateKey key), h)
  ∧ Get ctx key (snd (Set_ ctx key val h)) = (old, true).
Proof.
  intros Hc Hk. rewrite (Set_bound _ _ _ _ _ _ Hc Hk). split; [done|].
  simpl. rewrite (Get_bound _ _ _ _ Hc). unfold sm_Load. by rewrite Hk.
Qed.

Lemma Set_never_overwrites_witness :
  Set_ ctx0 "a" (VString "y") heap0 = (Some (ErrDuplicateKey "a"), heap0)
  ∧ Get ctx0 "a" (snd (Set_ ctx0 "a" (VString "y") heap0)) = (VString "x", true).
Proof.
  apply (Set_never_overwrites ctx0 "a" (VString "y") (VString "x") heap0 0%nat);
    reflexivity.
Defined.

(** C7. [New] attaches a store once.  On a context that carries a store it
    returns the same context, [cached = true], and an unchanged heap.  On a
    context without one it returns [cached = false] and a context derived
    from the argument that carries a store which was not allocated before
    and is empty.  A second [New] on the result of a first one returns its
    argument and allocates nothing. *)
Theorem New_attach_once (ctx : Context) (h : Heap) :
  (∀ m, cache ctx = Some m → New ctx h = (ctx, true, h))
  ∧ (cache ctx = None →
     ∃ l, New ctx h = (WithValue ctx ctxKey (CStore l), false, <[l := ∅]> h)
          ∧ h !! l = None
          ∧ cache (WithValue ctx ctxKey (CStore l)) = Some l
          ∧ deref (<[l := ∅]> h) l = ∅)
  ∧ (let '(c, _, h1) := New ctx h in New c h1 = (c, true, h1)).
Proof.
  split; [|split].
  - intros m Hc. unfold New. by rewrite Hc.
  - intros Hc. exists (fresh (dom h)). unfold New, new_Map. rewrite Hc.
    split; [done|]. split; [apply new_Map_fresh|].
    split; [apply cache_WithValue_store|apply deref_insert_eq].
  - unfold New at 1. destruct (cache ctx) as [m|] eqn:Hc.
    + unfold New. by rewrite Hc.
    + unfold new_Map. unfold New. by rewrite cache_WithValue_store.
Qed.

Lemma New_attach_once_witness :
  New ctx0 heap0 = (ctx0, true, heap0)
  ∧ (∃ l, New Background heap0
          = (WithValue Background ctxKey (CStore l), false, <[l := ∅]> heap0)
          ∧ heap0 !! l = None).
Proof.
  split.
  - apply (proj1 (New_attach_once ctx0 heap0) 0%nat). reflexivity.
  - destruct (proj1 (proj2 (New_attach_once Background heap0)) eq_refl)
      as (l & H1 & H2 & _).
    exists l. split; assumption.
Defined.

(** C8. On a context with an attached store, a [Set] that returns nil is
    followed by a [Get] of the same key that returns the value set, and a
    [Set] of a key that is not bound does return nil.  On a context without
    a store [Get] returns [(nil, false)] and [Set] returns an error. *)
Theorem Set_then_Get (ctx : Context) (key : string) (val : Value) (h : Heap) :
  (∀ m h', cache ctx = Some m → Set_ ctx key val h = (None, h') →
           Get ctx key h' = (val, true))
  ∧ (∀ m, cache ctx = Some m → deref h m !! key = None →
          ∃ h', Set_ ctx key val h = (None, h'))
  ∧ (cache ctx = None →
     Get ctx key h = (VNil, false)
     ∧ Set_ ctx key val h = (Some ErrKnifeUninitialized, h)).
Proof.
  split; [|split].
  - intros m h' Hc HS. rewrite (Get_bound _ _ _ _ Hc).
    destruct (deref h m !! key) as [v|] eqn:Hk.
    + rewrite (Set_bound _ _ _ _ _ _ Hc Hk) in HS. discriminate.
    + rewrite (Set_unbound _ _ _ _ _ Hc Hk) in HS.
      injection HS as <-. rewrite deref_insert_eq.
      unfold sm_Load. by rewrite lookup_insert_eq.
  - intros m Hc Hk. eexists. by apply Set_unbound.
  - intros Hc. unfold Get, Set_. by rewrite Hc.
Qed.

Lemma Set_then_Get_witness :
  Get ctx0 "b" (snd (Set_ ctx0 "b" (VString "y") heap0)) = (VString "y", true)
  ∧ Get Background "b" heap0 = (VNil, false)
  ∧ Set_ Background "b" (VString "y") heap0 = (Some ErrKnifeUninitialized, heap0).
Proof.
  split.
  - apply (proj1 (Set_then_Get ctx0 "b" (VString "y") heap0) 0%nat);
      reflexivity.
  - apply (proj2 (proj2 (Set_then_Get Background "b" (VString "y") heap0))).
    reflexivity.
Defined.

Lemma copy_keys_ok (m : SyncMap) (dest : Context) (l : loc) (keys : list string) :
  cache dest = Some l →
  ∀ h : Heap,
    NoDup (present m keys) →
    (∀ k, k ∈ keys → deref h l !! k = None) →
    ∃ h', copy_keys m dest keys h = (None, h')
          ∧ (∀ k, deref h' l !! k
                  = if bool_decide (k ∈ keys) then m !! k else deref h l !! k)
          ∧ (∀ l', l' ≠ l → h' !! l' = h !! l').
Proof.
  intros Hc. induction keys as [|key keys IH]; intros h Hnd Hfree.
  - exists h. simpl. repeat split; done.
  - simpl. unfold sm_Load. destruct (m !! key) as [v|] eqn:Hm.
    + assert (Hkey : deref h l !! key = None) by (apply Hfree; left).
      rewrite (Set_unbound _ _ _ _ _ Hc Hkey).
      unfold present in Hnd. rewrite filter_cons_True in Hnd by (by rewrite Hm).
      apply NoDup_cons in Hnd as [Hnotin Hnd].
      destruct (IH (<[l := <[key := v]> (deref h l)]> h) Hnd)
        as (h' & Hrun & Hl & Hother).
      { intros k Hk. rewrite deref_insert_eq.
        destruct (decide (k = key)) as [->|Hne].
        - exfalso. apply Hnotin. apply list_elem_of_filter. split; [by rewrite Hm|done].
        - rewrite lookup_insert_ne by done. apply Hfree. by right. }
      exists h'. split; [done|]. split.
      * intros k. rewrite Hl, deref_insert_eq.
        destruct (decide (k = key)) as [->|Hne].
        -- rewrite (bool_decide_eq_true_2 (key ∈ key :: keys)) by left.
           case_bool_decide as Hin; [done|]. by rewrite lookup_insert_eq.
        -- rewrite lookup_insert_ne by done.
           case_bool_decide as Hin.
           ++ by rewrite bool_decide_eq_true_2 by (by right).
           ++ rewrite bool_decide_eq_false_2; [done|].
              intros [?|?]%elem_of_cons; done.
      * intros l' Hne. rewrite Hother by done. by rewrite lookup_insert_ne.
    + unfold present in Hnd. rewrite filter_cons_False in Hnd
        by (rewrite Hm; by intros [? ?]).
      destruct (IH h Hnd) as (h' & Hrun & Hl & Hother).
      { intros k Hk. apply Hfree. by right. }
      exists h'. split; [done|]. split; [|done].
      intros k. rewrite Hl.
      destruct (decide (k = key)) as [->|Hne].
      * rewrite (bool_decide_eq_true_2 (key ∈ key :: keys)) by left.
        case_bool_decide as Hin; [done|]. rewrite Hm. apply Hfree. left.
      * case_bool_decide as Hin.
        -- by rewrite bool_decide_eq_true_2 by (by right).
        -- rewrite bool_decide_eq_false_2; [done|].
           intros [?|?]%elem_of_cons; done.
Qed.

(** Once the destination binds a key that the source binds too, the loop
    stops at that key, or earlier, with the duplicate-key error. *)
Lemma copy_keys_bound (m : SyncMap) (dest : Context) (l : loc) (key : string)
  (keys : list string) :
  cache dest = Some l → is_Some (m !! key) →
  ∀ h : Heap,
    key ∈ keys → is_Some (deref h l !! key) →
    ∃ k h', copy_keys m dest keys h = (Some (ErrDuplicateKey k), h').
Proof.
  intros Hc Hm. induction keys as [|k0 keys IH]; intros h Hin Hb.
  - by apply not_elem_of_nil in Hin.
  - simpl. unfold sm_Load. destruct (m !! k0) as [v0|] eqn:Hm0.
    + destruct (deref h l !! k0) as [w|] eqn:Hk0.
      * rewrite (Set_bound _ _ _ _ _ _ Hc Hk0). by eexists _, _.
      * rewrite (Set_unbound _ _ _ _ _ Hc Hk0).
        assert (Hne : k0 ≠ key) by (intros ->; rewrite Hk0 in Hb; by destruct Hb).
        apply IH.
        -- apply elem_of_cons in Hin as [->|?]; done.
        -- rewrite deref_insert_eq. by rewrite lookup_insert_ne.
    + apply IH; [|done].
      apply elem_of_cons in Hin as [->|?]; [|done].
      rewrite Hm0 in Hm. by destruct Hm.
Qed.

(** A key that the source binds and that is given twice stops the loop
    with the duplicate-key error. *)
Lemma copy_keys_repeated (m : SyncMap) (dest : Context) (l : loc)
  (keys : list string) :
  cache dest = Some l →
  ∀ h : Heap,
    ¬ NoDup (present m keys) →
    ∃ k h', copy_keys m dest keys h = (Some (ErrDuplicateKey k), h').
Proof.
  intros Hc. induction keys as [|key keys IH]; intros h Hdup.
  - exfalso. apply Hdup. constructor.
  - simpl. unfold sm_Load. unfold present in Hdup.
    destruct (m !! key) as [v|] eqn:Hm.
    + rewrite filter_cons_True in Hdup by (by rewrite Hm).
      destruct (deref h l !! key) as [w|] eqn:Hk.
      * rewrite (Set_bound _ _ _ _ _ _ Hc Hk). by eexists _, _.
      * rewrite (Set_unbound _ _ _ _ _ Hc Hk).
        destruct (decide (key ∈ filter (λ k, is_Some (m !! k)) keys)) as [Hin|Hnin].
        -- apply list_elem_of_filter in Hin as [_ Hin].
           apply (copy_keys_bound m dest l key keys Hc); [by rewrite Hm|done|].
           rewrite deref_insert_eq. by rewrite lookup_insert_eq.
        -- apply IH. intros Hnd. apply Hdup. by apply NoDup_cons.
    + rewrite filter_cons_False in Hdup by (rewrite Hm; by intros [? ?]).
      by apply IH.
Qed.

(** C9, amended. [Copy] from a context without a store returns a nil
    context and a nil error, and does nothing else.  From a context with a store and with
    explicit keys, of which those bound in the source are pairwise
    different, it returns a context derived from [context.Background] alone
    that carries a store allocated by the call; that store binds exactly
    the given keys that the source binds, to the source's values, and every
    store that existed before is unchanged.  When a key that the source
    binds is given more than once, no context is returned: the result is a
    nil context and the duplicate-key error. *)
Theorem Copy_explicit_keys (src : Context) (keys : list string) (h : Heap) :
  (cache src = None → Copy src keys h = (None, None, h))
  ∧ (∀ ml, cache src = Some ml → keys ≠ [] →
       NoDup (present (deref h ml) keys) →
       ∃ l h', Copy src keys h
               = (Some (WithValue Background ctxKey (CStore l)), None, h')
             ∧ h !! l = None
             ∧ (∀ k, deref h' l !! k
                     = if bool_decide (k ∈ keys) then deref h ml !! k else None)
             ∧ (∀ l', is_Some (h !! l') → h' !! l' = h !! l'))
  ∧ (∀ ml, cache src = Some ml → keys ≠ [] →
       ¬ NoDup (present (deref h ml) keys) →
       ∃ k h', Copy src keys h = (None, Some (ErrDuplicateKey k), h')).
Proof.
  split; [|split].
  - intros Hc. unfold Copy. by rewrite Hc.
  - intros ml Hc Hkeys Hnd. unfold Copy. rewrite Hc.
    change (New Background h)
      with (WithValue Background ctxKey (CStore (fresh (dom h))), false,
            <[fresh (dom h) := ∅]> h).
    set (l := fresh (dom h)). set (dest := WithValue Background ctxKey (CStore l)).
    destruct (copy_keys_ok (deref h ml) dest l keys eq_refl (<[l := ∅]> h) Hnd)
      as (h' & Hrun & Hl & Hother).
    { intros k _. by rewrite deref_insert_eq. }
    exists l, h'. destruct keys as [|key keys']; [done|].
    rewrite Hrun. split; [done|]. split; [apply new_Map_fresh|]. split.
    + intros k. rewrite Hl, deref_insert_eq. by case_bool_decide.
    + intros l' [s Hs]. rewrite Hother.
      * rewrite lookup_insert_ne; [done|]. intros <-.
        pose proof (new_Map_fresh h) as Hf. fold l in Hf. congruence.
      * intros ->. pose proof (new_Map_fresh h) as Hf. fold l in Hf. congruence.
  - intros ml Hc Hkeys Hdup. unfold Copy. rewrite Hc.
    change (New Background h)
      with (WithValue Background ctxKey (CStore (fresh (dom h))), false,
            <[fresh (dom h) := ∅]> h).
    destruct (copy_keys_repeated (deref h ml)
                (WithValue Background ctxKey (CStore (fresh (dom h))))
                (fresh (dom h)) keys eq_refl (<[fresh (dom h) := ∅]> h) Hdup)
      as (k & h' & Hrun).
    destruct keys as [|key keys']; [done|].
    rewrite Hrun. by exists k, h'.
Qed.

Lemma Copy_explicit_keys_witness :
  Copy (WithValue Background (UserKey "u") (CUser VNil)) ["a"] heap1
    = (None, None, heap1)
  ∧ ∃ l h', Copy ctx0 ["a"; "c"] heap1
            = (Some (WithValue Background ctxKey (CStore l)), None, h')
            ∧ deref h' l !! "a" = Some (VString "x")
            ∧ deref h' l !! "b" = None
            ∧ deref h' l !! "c" = None.
Proof.
  split.
  - apply (proj1 (Copy_explicit_keys _ ["a"] heap1)). reflexivity.
  - destruct (proj1 (proj2 (Copy_explicit_keys ctx0 ["a"; "c"] heap1)) 0%nat)
      as (l & h' & HC & _ & Hk & _).
    + reflexivity.
    + discriminate.
    + vm_compute. repeat constructor; set_solver.
    + exists l, h'. split; [exact HC|].
      rewrite !Hk. repeat split; reflexivity.
Defined.

(** C9 as stated fails: the source has a store that binds ["a"], explicit
    keys are given, and nothing is copied into a context: the key is given
    twice, the second [Set] on the destination fails, and [Copy] returns a
    nil context and the duplicate-key error. *)
Lemma Copy_repeated_key :
  cache ctx0 = Some 0%nat
  ∧ deref heap1 0%nat !! "a" = Some (VString "x")
  ∧ fst (Copy ctx0 ["a"; "a"] heap1) = (None, Some (ErrDuplicateKey "a")).
Proof. repeat split. Qed.

End KnifeFacts.

(* ===================================================================== *)
(** ** Properties of package apcu *)
(* ===================================================================== *)

Module ApcuFacts.
Import apcu.

(** *** Strings *)

Lemma length_append (s k : string) :
  String.length (s +:+ k) = (String.length s + String.length k)%nat.
Proof. induction s as [|a s IH]; simpl; [done|]. by rewrite IH. Qed.

(** A common suffix cancels. *)
Lemma append_cancel_r (k s1 s2 : string) :
  s1 +:+ k = s2 +:+ k → s1 = s2.
Proof.
  revert s2. induction s1 as [|a s1 IH]; intros [|b s2] H; simpl in H.
  - done.
  - apply (f_equal String.length) in H.
    rewrite ?length_append in H. simpl in H. rewrite ?length_append in H. lia.
  - apply (f_equal String.length) in H.
    rewrite ?length_append in H. simpl in H. rewrite ?length_append in H. lia.
  - injection H as -> H. f_equal. by apply IH.
Qed.

(** *** What a lookup depends on *)

Section WithJSON.
Variable Unmarshal : string → GoType → option Data.

(** The answer of [load] is decided by the entry under its key. *)
Lemma load_entry (key : string) (out : OutArg) (now : Time)
  (c1 c2 : gmap string cacheItem) :
  c1 !! key = c2 !! key →
  fst (load Unmarshal key out now c1) = fst (load Unmarshal key out now c2).
Proof.
  intros H. unfold load. rewrite H.
  destruct (c2 !! key) as [item|]; [|done].
  destruct (source item); [done|..];
    (destruct (negb (IsZero (expireAt item)) && After now (expireAt item));
     [done|]);
    (destruct out as [| | |elem]; [done..|]).
  - destruct (Unmarshal s elem); [done|]. by destruct (kindIsString elem).
  - by case_decide.
  - by case_decide.
  - done.
  - by case_decide.
Qed.

(** [load] writes under its key only. *)
Lemma load_frame (key k : string) (out : OutArg) (now : Time)
  (c : gmap string cacheItem) :
  k ≠ key → snd (load Unmarshal key out now c) !! k = c !! k.
Proof.
  intros Hne. unfold load.
  destruct (c !! key) as [item|]; [|done].
  destruct (source item); [done|..];
    (destruct (negb (IsZero (expireAt item)) && After now (expireAt item));
     [simpl; by rewrite lookup_insert_ne|]);
    (destruct out as [| | |elem]; [done..|]).
  - destruct (Unmarshal s elem); [simpl; by rewrite lookup_insert_ne|].
    by destruct (kindIsString elem).
  - by case_decide.
  - by case_decide.
  - done.
  - by case_decide.
Qed.

Lemma getKey_with_cache (ctx : knife.Context) (key : string)
  (c : gmap string cacheItem) (w : World) :
  getKey ctx key (with_cache c w) = getKey ctx key w.
Proof. reflexivity. Qed.

Lemma record_load_cache (key : string) (r : LoadResult) (w : World) :
  cache (record_load key r w) = cache w
  ∧ heap (record_load key r w) = heap w
  ∧ ReplayMode (record_load key r w) = ReplayMode w.
Proof.
  unfold record_load. destruct (err r); [done|].
  by destruct (RecordMode w).
Qed.

Lemma getKey_record_load (ctx : knife.Context) (key k : string)
  (r : LoadResult) (w : World) :
  getKey ctx key (record_load k r w) = getKey ctx key w.
Proof.
  destruct (record_load_cache k r w) as (_ & Hh & Hm).
  unfold getKey. by rewrite Hh, Hm.
Qed.

(** [Load] is [load] at the resolved key. *)
Lemma Load_resolved (ctx : knife.Context) (key key' : string) (out : OutArg)
  (now : Time) (w : World) :
  getKey ctx key w = (key', None) →
  fst (Load Unmarshal ctx key out now w)
    = fst (load Unmarshal key' out now (cache w))
  ∧ cache (snd (Load Unmarshal ctx key out now w))
    = snd (load Unmarshal key' out now (cache w)).
Proof.
  intros Hk. unfold Load. rewrite Hk.
  destruct (load Unmarshal key' out now (cache w)) as [r c].
  split; [done|]. simpl.
  by destruct (record_load_cache key' r (with_cache c w)) as (-> & _).
Qed.

Lemma getKey_after_Load (ctx ctx' : knife.Context) (key k : string)
  (out : OutArg) (now : Time) (w : World) :
  getKey ctx' k (snd (Load Unmarshal ctx key out now w)) = getKey ctx' k w.
Proof.
  unfold Load. destruct (getKey ctx key w) as [key' [e|]].
  - simpl. apply getKey_record_load.
  - destruct (load Unmarshal key' out now (cache w)) as [r c]. simpl.
    by rewrite getKey_record_load.
Qed.

Lemma getKey_replay (ctx : knife.Context) (key sid : string) (w : World) :
  ReplayMode w = true →
  replayer.GetSessionID ctx (heap w) = (sid, None) →
  getKey ctx key w = (sid +:+ key, None).
Proof. intros Hm Hs. unfold getKey. by rewrite Hm, Hs. Qed.

Lemma getKey_off (ctx : knife.Context) (key : string) (w : World) :
  ReplayMode w = false → getKey ctx key w = (key, None).
Proof. intros Hm. unfold getKey. by rewrite Hm. Qed.

Lemma Store_resolved (ctx : knife.Context) (key key' : string) (val : Value)
  (opts : list StoreOption) (now : Time) (w : World) :
  getKey ctx key w = (key', None) →
  ∃ e, Store ctx key val opts now w
       = (None, with_cache (<[key' := {| source := val; expireAt := e |}]> (cache w)) w).
Proof. intros Hk. unfold Store. rewrite Hk. by eexists. Qed.

(** C4, amended.  With replay mode on and the session id [sid] bound in
    the context, [Store] and [Load] work on the entry named [sid ++ key];
    with replay mode off they work on the entry named [key].  A [Store]
    under one session id does not change what a [Load] of the same key
    under another session id returns. *)
Theorem session_prefixed_keys
  (ctx : knife.Context) (key : string) (val : Value)
  (opts : list StoreOption) (out : OutArg) (now : Time) (w : World) :
  (∀ sid, ReplayMode w = true →
     replayer.GetSessionID ctx (heap w) = (sid, None) →
     (∃ e, Store ctx key val opts now w
           = (None, with_cache (<[sid +:+ key := {| source := val; expireAt := e |}]>
                                  (cache w)) w))
     ∧ fst (Load Unmarshal ctx key out now w)
       = fst (load Unmarshal (sid +:+ key) out now (cache w))
     ∧ cache (snd (Load Unmarshal ctx key out now w))
       = snd (load Unmarshal (sid +:+ key) out now (cache w)))
  ∧ (ReplayMode w = false →
     (∃ e, Store ctx key val opts now w
           = (None, with_cache (<[key := {| source := val; expireAt := e |}]>
                                  (cache w)) w))
     ∧ fst (Load Unmarshal ctx key out now w)
       = fst (load Unmarshal key out now (cache w))
     ∧ cache (snd (Load Unmarshal ctx key out now w))
       = snd (load Unmarshal key out now (cache w)))
  ∧ (∀ ctx2 sid sid2 now2, ReplayMode w = true →
     replayer.GetSessionID ctx (heap w) = (sid, None) →
     replayer.GetSessionID ctx2 (heap w) = (sid2, None) →
     sid ≠ sid2 →
     fst (Load Unmarshal ctx2 key out now2 (snd (Store ctx key val opts now w)))
     = fst (Load Unmarshal ctx2 key out now2 w)).
Proof.
  split; [|split].
  - intros sid Hm Hs. pose proof (getKey_replay ctx key sid w Hm Hs) as Hk.
    split; [by apply Store_resolved|]. by apply Load_resolved.
  - intros Hm. pose proof (getKey_off ctx key w Hm) as Hk.
    split; [by apply Store_resolved|]. by apply Load_resolved.
  - intros ctx2 sid sid2 now2 Hm Hs Hs2 Hne.
    pose proof (getKey_replay ctx key sid w Hm Hs) as Hk.
    pose proof (getKey_replay ctx2 key sid2 w Hm Hs2) as Hk2.
    destruct (Store_resolved ctx key _ val opts now w Hk) as [e ->].
    simpl.
    rewrite (proj1 (Load_resolved ctx2 key (sid2 +:+ key) out now2 w Hk2)).
    rewrite (proj1 (Load_resolved ctx2 key (sid2 +:+ key) out now2
                      (with_cache _ w) Hk2)).
    apply load_entry. simpl. rewrite lookup_insert_ne; [done|].
    intros Heq. by apply append_cancel_r in Heq.
Qed.

(** *** Expiry *)

Lemma load_tombstone (key : string) (out : OutArg) (now e : Time)
  (c : gmap string cacheItem) :
  c !! key = Some {| source := VNil; expireAt := e |} →
  load Unmarshal key out now c = (miss, c).
Proof. intros H. unfold load. by rewrite H. Qed.

Lemma load_expired (key : string) (out : OutArg) (now : Time)
  (c : gmap string cacheItem) (item : cacheItem) :
  c !! key = Some item →
  expireAt item ≠ 0 → expireAt item < now →
  fst (load Unmarshal key out now c) = miss
  ∧ snd (load Unmarshal key out now c) !! key
    = Some {| source := VNil; expireAt := expireAt item |}.
Proof.
  intros H Hnz Hpast. unfold load. rewrite H.
  assert (Hexp : negb (IsZero (expireAt item)) && After now (expireAt item) = true).
  { unfold IsZero, After. apply andb_true_iff. split.
    - apply negb_true_iff. by apply Z.eqb_neq.
    - by apply Z.ltb_lt. }
  rewrite Hexp.
  destruct item as [src e]. simpl in *.
  destruct src; simpl; [by rewrite H|..]; by rewrite lookup_insert_eq.
Qed.

(** C5. A [Load] that resolves to an entry whose expiry is not the zero
    time and lies in the past returns [(false, nil)] and writes nothing
    through [out].  Afterwards the key is still in the cache, bound to an
    item with a nil source and the same expiry; no other key is touched;
    and every later [Load] of the key, at any time and with any [out],
    returns [(false, nil)] again and leaves the cache as it is. *)
Theorem expired_entry_tombstoned
  (ctx : knife.Context) (k key : string) (out : OutArg) (now : Time)
  (w : World) (item : cacheItem) :
  getKey ctx k w = (key, None) →
  cache w !! key = Some item →
  expireAt item ≠ 0 →
  expireAt item < now →
  let w' := snd (Load Unmarshal ctx k out now w) in
  fst (Load Unmarshal ctx k out now w) = miss
  ∧ cache w' !! key = Some {| source := VNil; expireAt := expireAt item |}
  ∧ (∀ k', k' ≠ key → cache w' !! k' = cache w !! k')
  ∧ (∀ out' now',
       fst (Load Unmarshal ctx k out' now' w') = miss
       ∧ cache (snd (Load Unmarshal ctx k out' now' w')) = cache w').
Proof.
  intros Hk Hitem Hnz Hpast w'.
  destruct (Load_resolved ctx k key out now w Hk) as [Hr Hc].
  destruct (load_expired key out now (cache w) item Hitem Hnz Hpast) as [Hm Ht].
  subst w'. rewrite Hr, Hc. split; [done|]. split; [done|]. split.
  - intros k' Hne. by apply load_frame.
  - intros out' now'.
    assert (Hk' : getKey ctx k (snd (Load Unmarshal ctx k out now w)) = (key, None))
      by (by rewrite getKey_after_Load).
    destruct (Load_resolved ctx k key out' now' _ Hk') as [Hr' Hc'].
    rewrite Hr', Hc', Hc.
    by rewrite (load_tombstone key out' now' _ _ Ht).
Qed.

(** *** Types *)

Lemma not_expired (now : Time) (item : cacheItem) :
  expireAt item = 0 ∨ now ≤ expireAt item →
  negb (IsZero (expireAt item)) && After now (expireAt item) = false.
Proof.
  unfold IsZero, After. intros [H|H].
  - rewrite H. reflexivity.
  - apply andb_false_iff. right. by apply Z.ltb_ge.
Qed.

(** What the type switch of [load] answers, for an entry that is not
    expired and whose source is not nil, and an [out] that is a non-nil
    pointer to [elem]: a source of a type other than string and
    [reflect.Value] whose type is not [elem] gives [ok = false] and a type
    error; a source that is a [reflect.Value] is compared by the type it
    wraps: it gives the type error when that type is not [elem]; when it is,
    the value is written to [out], unless it was read through an unexported
    field, which makes [Set] panic; the zero [reflect.Value] makes [Type]
    panic; a source that is a string succeeds when it decodes into [elem],
    or when the kind of [elem] is string, and gives the decoding error
    otherwise. *)
Theorem load_type_check
  (ctx : knife.Context) (k key : string) (elem : GoType) (now : Time)
  (w : World) (item : cacheItem) :
  getKey ctx k w = (key, None) →
  cache w !! key = Some item →
  expireAt item = 0 ∨ now ≤ expireAt item →
  let r := fst (Load Unmarshal ctx k (OutPtr elem) now w) in
  (∀ t d, source item = VOther t d → t ≠ elem →
          r = fail (ErrTypeNotMatch elem))
  ∧ (∀ t d, source item = VReflect t d → t ≠ elem →
            r = fail (ErrTypeNotMatch elem))
  ∧ (∀ d, source item = VReflect elem d → r = hit elem d)
  ∧ (∀ s, source item = VString s →
          match Unmarshal s elem with
          | Some d => r = hit elem d
          | None =>
              if kindIsString elem then r = hit elem (DStr s)
              else r = fail (ErrJSON s elem)
          end)
  ∧ (source item = VReflectZero → is_Some (panic r))
  ∧ (∀ d, source item = VReflectRO elem d → is_Some (panic r))
  ∧ (∀ t d, source item = VReflectRO t d → t ≠ elem →
            r = fail (ErrTypeNotMatch elem)).
Proof.
  intros Hk Hitem Hne r. subst r.
  rewrite (proj1 (Load_resolved ctx k key (OutPtr elem) now w Hk)).
  unfold load. rewrite Hitem.
  rewrite (not_expired now item Hne).
  repeat split.
  - intros t d -> Ht. by rewrite decide_False.
  - intros t d -> Ht. by rewrite decide_False.
  - intros d ->. by rewrite decide_True.
  - intros s ->. destruct (Unmarshal s elem); [done|].
    by destruct (kindIsString elem).
  - intros ->. by eexists.
  - intros d ->. rewrite decide_True by done. by eexists.
  - intros t d -> Ht. by rewrite decide_False.
Qed.

(** *** Replay mode without a session id *)

(** C10. With replay mode on and no session id resolved from the
    context, [Load] and [Store] return the resolution error and leave the
    cache alone, while [Delete] drops the error and deletes the entry
    named by the empty string: afterwards that name is unbound and every
    entry with another name is as before. *)
Theorem Delete_ignores_session_error
  (ctx : knife.Context) (key sid : string) (e : error) (val : Value)
  (opts : list StoreOption) (out : OutArg) (now : Time) (w : World) :
  ReplayMode w = true →
  replayer.GetSessionID ctx (heap w) = (sid, Some e) →
  fst (Load Unmarshal ctx key out now w) = fail e
  ∧ cache (snd (Load Unmarshal ctx key out now w)) = cache w
  ∧ Store ctx key val opts now w = (Some e, w)
  ∧ Delete ctx key w = with_cache (delete "" (cache w)) w
  ∧ cache (Delete ctx key w) !! "" = None
  ∧ (∀ k, k ≠ "" → cache (Delete ctx key w) !! k = cache w !! k).
Proof.
  intros Hm Hs.
  assert (Hk : getKey ctx key w = ("", Some e))
    by (unfold getKey; by rewrite Hm, Hs).
  unfold Load, Store, Delete. rewrite Hk. simpl.
  repeat split.
  - apply lookup_delete_eq.
  - intros k Hne. by rewrite lookup_delete_ne.
Qed.

End WithJSON.

Import Fixtures.

(** C4 as stated fails: the names are concatenated without a separator, so
    the entry stored under session ["s"] with key ["1a"] is the entry that
    session ["s1"] reads with key ["a"]. *)
Lemma session_prefix_collision :
  replayer.GetSessionID ctxA (heap wR) = ("s", None)
  ∧ replayer.GetSessionID ctxB (heap wR) = ("s1", None)
  ∧ fst (Load tinyJSON ctxB "a" (OutPtr TInt) 0 wR) = miss
  ∧ fst (Store ctxA "1a" (VOther TInt (DInt 7)) [] 0 wR) = None
  ∧ fst (Load tinyJSON ctxB "a" (OutPtr TInt) 0
           (snd (Store ctxA "1a" (VOther TInt (DInt 7)) [] 0 wR)))
    = hit TInt (DInt 7).
Proof. repeat split. Qed.

Lemma session_prefixed_keys_witness :
  fst (Load tinyJSON ctxB "a" (OutPtr TInt) 3
         (snd (Store ctxA "a" (VOther TInt (DInt 7)) [] 0 wR)))
  = fst (Load tinyJSON ctxB "a" (OutPtr TInt) 3 wR).
Proof.
  apply (proj2 (proj2 (session_prefixed_keys tinyJSON ctxA "a"
                         (VOther TInt (DInt 7)) [] (OutPtr TInt) 0 wR))
           ctxB "s" "s1" 3); [reflexivity..|discriminate].
Defined.

(** [TestReplay]: in replay mode, under the session id ["s"], a [Load] of
    ["a"] misses without an error; after a [Store] of a [*dataType] the
    [Load] succeeds; and [Range] shows the value under the session id
    followed by ["a"]. *)
Example TestReplay :
  fst (Load tinyJSON ctxA "a" (OutPtr (TPtr (TStruct "dataType"))) 0 wR) = miss
  ∧ fst (Store ctxA "a" (VOther (TPtr (TStruct "dataType")) (DRef 1)) [] 0 wR)
    = None
  ∧ fst (Load tinyJSON ctxA "a" (OutPtr (TPtr (TStruct "dataType"))) 0
           (snd (Store ctxA "a" (VOther (TPtr (TStruct "dataType")) (DRef 1))
                   [] 0 wR)))
    = hit (TPtr (TStruct "dataType")) (DRef 1)
  ∧ Range (snd (Store ctxA "a" (VOther (TPtr (TStruct "dataType")) (DRef 1))
                  [] 0 wR))
      !! ("s" +:+ "a")
    = Some (VOther (TPtr (TStruct "dataType")) (DRef 1)).
Proof. repeat split. Qed.

Lemma expired_entry_tombstoned_witness :
  fst (Load tinyJSON knife.Background "k" (OutPtr TString) 10 wExpiring) = miss
  ∧ cache (snd (Load tinyJSON knife.Background "k" (OutPtr TString) 10 wExpiring))
      !! "k"
    = Some {| source := VNil; expireAt := 5 |}.
Proof.
  destruct (expired_entry_tombstoned tinyJSON knife.Background "k" "k"
              (OutPtr TString) 10 wExpiring
              {| source := VString "v"; expireAt := 5 |})
    as (H1 & H2 & _); [reflexivity|reflexivity|discriminate|reflexivity|].
  split; [exact H1|exact H2].
Defined.

(** C6. The code at the failing input: a stored [reflect.Value] that wraps
    an int is not a string and its dynamic type is not int, and yet a [Load]
    into an [*int] returns [(true, nil)] and writes the int, where the
    comments of [Load] and [Store] promise a failure. *)
Lemma reflect_value_loads :
  Store knife.Background "k" (VReflect TInt (DInt 1)) [] 0 (wOff ∅)
    = (None, wReflect)
  ∧ (source <$> cache wReflect !! "k") = Some (VReflect TInt (DInt 1))
  ∧ dynType (VReflect TInt (DInt 1)) = Some TReflectValue
  ∧ TReflectValue ≠ TInt
  ∧ fst (Load tinyJSON knife.Background "k" (OutPtr TInt) 0 wReflect)
    = hit TInt (DInt 1).
Proof. repeat split. discriminate. Qed.

(** The same kind of entry is what a successful decode leaves behind: after
    the text ["1"] was loaded into an [*int], a [Load] into an [*int]
    succeeds from the cached [reflect.Value], and a [Load] into a
    [*float64] is a type error although the text decodes into a float64. *)
Example decoded_value_is_cached :
  Store knife.Background "k" (VString "1") [] 0 (wOff ∅) = (None, wText)
  ∧ fst (Load tinyJSON knife.Background "k" (OutPtr TFloat64) 0 wText)
    = hit TFloat64 (DInt 1)
  ∧ snd (Load tinyJSON knife.Background "k" (OutPtr TInt) 0 wText) = wReflect
  ∧ fst (Load tinyJSON knife.Background "k" (OutPtr TInt) 0 wReflect)
    = hit TInt (DInt 1)
  ∧ fst (Load tinyJSON knife.Background "k" (OutPtr TFloat64) 0 wReflect)
    = fail (ErrTypeNotMatch TFloat64).
Proof. repeat split. Qed.

(** A stored zero [reflect.Value], and a stored [reflect.Value] that was
    read through an unexported field and wraps the type [out] points to, do
    not make [Load] return at all: it panics, and the cache stays as it
    was. *)
Example stored_reflect_value_panics :
  panic (fst (Load tinyJSON knife.Background "k" (OutPtr TInt) 0 wZero))
    = Some "reflect: call of reflect.Value.Type on zero Value"
  ∧ cache (snd (Load tinyJSON knife.Background "k" (OutPtr TInt) 0 wZero))
    = cache wZero
  ∧ is_Some (panic (fst (Load tinyJSON knife.Background "k" (OutPtr TInt) 0
                           wUnexported)))
  ∧ fst (Load tinyJSON knife.Background "k" (OutPtr TBool) 0 wUnexported)
    = fail (ErrTypeNotMatch TBool).
Proof. repeat split. by eexists. Qed.

Lemma load_type_check_witness :
  fst (Load tinyJSON knife.Background "k" (OutPtr TInt) 7 wBool)
  = fail (ErrTypeNotMatch TInt).
Proof.
  apply (proj1 (load_type_check tinyJSON knife.Background "k" "k" TInt 7 wBool
                  {| source := VOther TBool (DBool true); expireAt := 0 |}
                  eq_refl eq_refl (or_introl eq_refl))
           TBool (DBool true)); [reflexivity|discriminate].
Defined.

Lemma Delete_ignores_session_error_witness :
  Store knife.Background "a" (VString "n") [] 0 wUnbound = (Some ErrSessionID, wUnbound)
  ∧ cache (Delete knife.Background "a" wUnbound) !! "" = None
  ∧ cache (Delete knife.Background "a" wUnbound) !! "a"
    = Some {| source := VString "v"; expireAt := 0 |}.
Proof.
  destruct (Delete_ignores_session_error tinyJSON knife.Background "a" ""
              ErrSessionID (VString "n") [] OutNil 0 wUnbound eq_refl eq_refl)
    as (_ & _ & HS & _ & HD & Hk).
  split; [exact HS|]. split; [exact HD|].
  rewrite Hk; [reflexivity|discriminate].
Defined.

End ApcuFacts.

(* ===================================================================== *)
(** ** Properties of the replay matching engine *)
(* ===================================================================== *)

Module ReplayerFacts.
Import fastdev replayer.

(** *** The earliest candidate *)



(** *** Positions *)





(** *** One replay call *)

Section Engine.
Variable reg : gmap string ProtocolPlugin.
Variable h : knife.Heap.







(** *** Draining the candidates of one request *)

Section Drain.
Variables (ctx : knife.Context) (sid protocolName requestText : string).
Variable p : ProtocolPlugin.
Hypothesis Hsid : GetSessionID ctx h = (sid, None).
Hypothesis Hreg : reg !! protocolName = Some p.




End Drain.

End Engine.


Import Fixtures.


(** In the session that also holds a request of another label, the three
    calls serve the positions 2, 3 and 0, the timestamps 10, 20 and 30, and
    never the position 1, although its timestamp is the smallest; that
    Action is served to its own request. *)
Example replay_session4 :
  fst (replay_all registry heapS (replicate 3 (ctxA, "REDIS", "SET a 1"))
         (snd (Store session4 ∅)))
  = [("s", inr (2%nat, action 10 "a")); ("s", inr (3%nat, action 20 "b"));
     ("s", inr (0%nat, action 30 "c"))]
  ∧ fst (ReplayAction registry ctxA heapS "REDIS" "HGET a"
           (snd (Store session4 ∅)))
    = inr (1%nat, hget).
Proof. split; reflexivity. Qed.

(** The three calls serve the positions 1, 2 and 0: the timestamps 10, 20
    and 30. *)
Example replay_session3 :
  fst (replay_all registry heapS (replicate 3 (ctxA, "REDIS", "SET a 1"))
         (snd (Store session3 ∅)))
  = [("s", inr (1%nat, action 10 "a")); ("s", inr (2%nat, action 20 "b"));
     ("s", inr (0%nat, action 30 "c"))].
Proof. reflexivity. Qed.

(** Binding a session id as the tests do: [knife.New], then
    [SetSessionID]; the id is then resolved from the context, and binding a
    second id in the same call tree is refused. *)
Example SetSessionID_binds :
  GetSessionID ctx0 (snd (SetSessionID ctx0 "sid" heap0)) = ("sid", None)
  ∧ fst (SetSessionID ctx0 "other" (snd (SetSessionID ctx0 "sid" heap0)))
    = Some (ErrDuplicateKey sessionIDKey)
  ∧ GetSessionID knife.Background heap0 = ("", Some ErrSessionID).
Proof. repeat split. Qed.

(** A call under another session id finds no session. *)
Example replay_other_session :
  fst (ReplayAction registry ctxB heapS "REDIS" "SET a 1" (snd (Store session3 ∅)))
  = inl (ErrNotFound "session").
Proof. reflexivity. Qed.

End ReplayerFacts.

(* ===================================================================== *)
(** ** Properties of the command-line codec *)
(* ===================================================================== *)

Module CastFacts.
Import cast.

Lemma run_escape_byte (b : byte) (acc : bytes) (vals : list bytes) (rest : bytes) :
  run (InQuoted acc) vals (escape_byte b ++ rest)
  = run (InQuoted (b :: acc)) vals rest.
Proof. destruct b; reflexivity. Qed.

Lemma run_escape (v : bytes) :
  ∀ (acc : bytes) (vals : list bytes) (rest : bytes),
    run (InQuoted acc) vals (escape v ++ rest)
    = run (InQuoted (rev v ++ acc)) vals rest.
Proof.
  induction v as [|b v IH]; intros acc vals rest; [done|].
  unfold escape. simpl. rewrite <- app_assoc. rewrite run_escape_byte.
  fold (escape v). rewrite IH. by rewrite <- app_assoc.
Qed.

Lemma plain_step (b : byte) (acc : bytes) (vals : list bytes) :
  plain b = true →
  step (InBare acc) vals b = inr (InBare (b :: acc), vals)
  ∧ step AtValue vals b = inr (InBare [b], vals).
Proof. destruct b; (discriminate || (intros _; split; reflexivity)). Qed.

Lemma run_plain (v : bytes) :
  ∀ (acc : bytes) (vals : list bytes) (rest : bytes),
    forallb plain v = true →
    run (InBare acc) vals (v ++ rest)
    = run (InBare (rev v ++ acc)) vals rest.
Proof.
  induction v as [|b v IH]; intros acc vals rest Hv; [done|].
  simpl in Hv. apply andb_true_iff in Hv as [Hb Hv].
  rewrite <- app_comm_cons. cbn [run].
  rewrite (proj1 (plain_step b acc vals Hb)).
  rewrite IH by done. simpl. by rewrite <- app_assoc.
Qed.

(** A value that ends the text. *)
Lemma run_value_end (v : bytes) (vals : list bytes) :
  run AtValue vals (quote_value v) = inr (rev (v :: vals)).
Proof.
  unfold quote_value. destruct v as [|b v]; [reflexivity|].
  destruct (forallb plain (b :: v)) eqn:Hv.
  - simpl in Hv. apply andb_true_iff in Hv as [Hb Hv].
    cbn [run]. rewrite (proj2 (plain_step b [] vals Hb)).
    rewrite <- (app_nil_r v) at 1. rewrite run_plain by done.
    cbn [run finish]. by rewrite rev_app_distr, rev_involutive.
  - cbn [run step]. simpl bool_decide. cbv iota.
    rewrite run_escape, app_nil_r.
    cbn [run step]. simpl bool_decide. cbv iota. cbn [finish].
    by rewrite rev_involutive.
Qed.

(** A value that is followed by the separator. *)
Lemma run_value_more (v : bytes) (vals : list bytes) (more : bytes) :
  run AtValue vals (quote_value v ++ separator :: more)
  = run AtValue (v :: vals) more.
Proof.
  unfold quote_value. destruct v as [|b v]; [reflexivity|].
  destruct (forallb plain (b :: v)) eqn:Hv.
  - simpl in Hv. apply andb_true_iff in Hv as [Hb Hv].
    rewrite <- app_comm_cons. cbn [run]. rewrite (proj2 (plain_step b [] vals Hb)).
    rewrite run_plain by done.
    cbn [run step]. simpl bool_decide. cbv iota.
    by rewrite rev_app_distr, rev_involutive.
  - rewrite <- app_comm_cons. cbn [run step]. simpl bool_decide. cbv iota.
    rewrite <- app_assoc.
    rewrite run_escape, app_nil_r.
    cbn [run step app]. simpl bool_decide. cbv iota.
    by rewrite rev_involutive.
Qed.

Lemma run_ToCommandLine (values : list bytes) :
  ∀ (v : bytes) (vals : list bytes),
    run AtValue vals (ToCommandLine (v :: values))
    = inr (rev vals ++ v :: values).
Proof.
  induction values as [|v' values IH]; intros v vals.
  - simpl. rewrite run_value_end. simpl. done.
  - change (ToCommandLine (v :: v' :: values))
      with (quote_value v ++ separator :: ToCommandLine (v' :: values)).
    rewrite run_value_more, IH. simpl. by rewrite <- app_assoc.
Qed.

(** C2. For every list of byte strings, the empty list, lists of one
    element, empty elements and elements of arbitrary bytes included,
    parsing the command line of the list succeeds and gives the list
    back. *)
Theorem ParseCommandLine_ToCommandLine (values : list bytes) :
  ParseCommandLine (ToCommandLine values) = inr values.
Proof.
  destruct values as [|v values]; [reflexivity|].
  pose proof (run_ToCommandLine values v []) as Hrun.
  unfold ParseCommandLine.
  destruct (ToCommandLine (v :: values)) as [|b text]; [discriminate|].
  exact Hrun.
Qed.

Import Fixtures.

Example ToCommandLine_words :
  ToCommandLine [text "SET"; text "a"; text "1"] = text "SET a 1".
Proof. reflexivity. Qed.

Example ToCommandLine_binary :
  ToCommandLine [text "SET"; text "a"; binary]
  = text "SET a " ++ [quote]
    ++ text "\x00\xc0\x0a\x09\x00\xbem\x06\x89Z(\x00\x0a" ++ [quote].
Proof. reflexivity. Qed.

Example ParseCommandLine_binary :
  ParseCommandLine (ToCommandLine [text "SET"; text "a"; binary])
  = inr [text "SET"; text "a"; binary].
Proof. reflexivity. Qed.

(** The empty list and the list of one empty value have different texts. *)
Example ToCommandLine_empty :
  ToCommandLine [] = [] ∧ ToCommandLine [[]] = [quote; quote].
Proof. split; reflexivity. Qed.

Example ParseCommandLine_unbalanced :
  ParseCommandLine (quote :: text "abc") = inl (ErrMalformed "unbalanced quote").
Proof. reflexivity. Qed.

Example ParseCommandLine_unknown_escape :
  ParseCommandLine (quote :: text "a\q" ++ [quote])
  = inl (ErrMalformed "unknown escape").
Proof. reflexivity. Qed.

End CastFacts.

(* ===================================================================== *)
(** ** More properties of package knife *)
(* ===================================================================== *)

Module KnifeMore.
Import knife KnifeFacts Fixtures.

(** *** The store of a derived context *)

Lemma cache_with_values (bindings : list (string * Value)) :
  ∀ ctx : Context, cache (with_values ctx bindings) = cache ctx.
Proof.
  induction bindings as [|[name v] bindings IH]; intros ctx; [done|].
  simpl. by rewrite IH.
Qed.

(** Contexts derived from one context by [WithValue] calls of other
    packages share its store: a [Set] that returns nil through one of them
    is read by [Get] through every other one, and [New] on any of them
    finds the store and attaches nothing. *)
Theorem derived_contexts_share_store
  (ctx : Context) (bs1 bs2 : list (string * Value)) (key : string)
  (val : Value) (h h' : Heap) :
  Set_ (with_values ctx bs1) key val h = (None, h') →
  Get (with_values ctx bs2) key h' = (val, true)
  ∧ New (with_values ctx bs2) h' = (with_values ctx bs2, true, h').
Proof.
  intros HS. unfold Set_ in HS. rewrite cache_with_values in HS.
  destruct (cache ctx) as [m|] eqn:Hc; [|discriminate].
  unfold Get, New. rewrite !cache_with_values, Hc. split; [|done].
  unfold sm_LoadOrStore in HS.
  destruct (deref h m !! key) as [old|]; [discriminate|].
  injection HS as <-. rewrite deref_insert_eq. unfold sm_Load.
  by rewrite lookup_insert_eq.
Qed.

Lemma derived_contexts_share_store_witness :
  Get (with_values ctx0 [("trace", VString "t")]) "b"
    (snd (Set_ (with_values ctx0 [("user", VString "u"); ("n", VNil)]) "b"
            (VString "y") heap0))
  = (VString "y", true).
Proof.
  apply (derived_contexts_share_store ctx0 [("user", VString "u"); ("n", VNil)]
           [("trace", VString "t")] "b" (VString "y") heap0).
  reflexivity.
Defined.

(** *** Set and Delete *)

Lemma Get_other_store (ctx : Context) (m l : loc) (s : SyncMap) (k : string)
  (h : Heap) :
  cache ctx = Some m → m ≠ l →
  Get ctx k (<[l := s]> h) = Get ctx k h.
Proof.
  intros Hc Hne. unfold Get. rewrite Hc. by rewrite deref_insert_ne.
Qed.

(** [Set] and [Delete] act on their key in the store of their context and
    on nothing else: every other key of that store, and every key of every
    other store, reads as before. *)
Theorem Set_Delete_frame
  (ctx ctx' : Context) (key k : string) (val : Value) (h : Heap) (m : loc) :
  cache ctx = Some m →
  (k ≠ key →
   Get ctx k (snd (Set_ ctx key val h)) = Get ctx k h
   ∧ Get ctx k (Delete ctx key h) = Get ctx k h)
  ∧ (∀ m', cache ctx' = Some m' → m' ≠ m →
       Get ctx' k (snd (Set_ ctx key val h)) = Get ctx' k h
       ∧ Get ctx' k (Delete ctx key h) = Get ctx' k h).
Proof.
  intros Hc. split.
  - intros Hne. rewrite !(Get_bound _ _ _ _ Hc). unfold Delete. rewrite Hc.
    rewrite deref_insert_eq. unfold sm_Load.
    rewrite lookup_delete_ne by done. split; [|done].
    destruct (deref h m !! key) as [old|] eqn:Hk.
    + by rewrite (Set_bound _ _ _ _ _ _ Hc Hk).
    + rewrite (Set_unbound _ _ _ _ _ Hc Hk). simpl.
      rewrite deref_insert_eq. by rewrite lookup_insert_ne.
  - intros m' Hc' Hne. unfold Delete. rewrite Hc.
    split; [|by apply (Get_other_store _ m')].
    destruct (deref h m !! key) as [old|] eqn:Hk.
    + by rewrite (Set_bound _ _ _ _ _ _ Hc Hk).
    + rewrite (Set_unbound _ _ _ _ _ Hc Hk). simpl.
      by apply (Get_other_store _ m').
Qed.

Lemma Set_Delete_frame_witness :
  Get ctx0 "a" (snd (Set_ ctx0 "b" (VString "y") heap1)) = Get ctx0 "a" heap1
  ∧ Get ctx0 "a" (Delete ctx0 "b" heap1) = Get ctx0 "a" heap1.
Proof.
  apply (proj1 (Set_Delete_frame ctx0 ctx0 "b" "a" (VString "y") heap1 0%nat
                  eq_refl)).
  discriminate.
Defined.

(** After [Delete] the key is unbound: [Get] returns [(nil, false)], and a
    [Set] of the key is accepted again and binds the new value.  On a
    context without a store [Delete] does nothing. *)
Theorem Delete_unbinds
  (ctx : Context) (key : string) (val : Value) (h : Heap) :
  (cache ctx = None → Delete ctx key h = h)
  ∧ (∀ m, cache ctx = Some m →
       Get ctx key (Delete ctx key h) = (VNil, false)
       ∧ fst (Set_ ctx key val (Delete ctx key h)) = None
       ∧ Get ctx key (snd (Set_ ctx key val (Delete ctx key h))) = (val, true)).
Proof.
  split.
  - intros Hc. unfold Delete. by rewrite Hc.
  - intros m Hc.
    assert (Hk : deref (Delete ctx key h) m !! key = None).
    { unfold Delete. rewrite Hc, deref_insert_eq. apply lookup_delete_eq. }
    rewrite (Get_bound _ _ _ _ Hc). unfold sm_Load at 1. rewrite Hk.
    split; [done|]. rewrite (Set_unbound _ _ _ _ _ Hc Hk). simpl.
    split; [done|]. rewrite (Get_bound _ _ _ _ Hc), deref_insert_eq.
    unfold sm_Load. by rewrite lookup_insert_eq.
Qed.

Lemma Delete_unbinds_witness :
  Get ctx0 "a" (Delete ctx0 "a" heap0) = (VNil, false)
  ∧ fst (Set_ ctx0 "a" (VString "z") (Delete ctx0 "a" heap0)) = None
  ∧ Get ctx0 "a" (snd (Set_ ctx0 "a" (VString "z") (Delete ctx0 "a" heap0)))
    = (VString "z", true).
Proof.
  apply (proj2 (Delete_unbinds ctx0 "a" (VString "z") heap0) 0%nat).
  reflexivity.
Defined.

(** *** A new store *)

(** A store attached by [New] is private to the new call tree: [Get] on the
    new context misses every key, also keys that older stores bind, and a
    [Set] through the new context leaves what every context with an older
    store reads unchanged. *)
Theorem New_store_is_private
  (ctx ctx' : Context) (key k : string) (val : Value) (h : Heap) (m' : loc) :
  cache ctx = None →
  cache ctx' = Some m' →
  is_Some (h !! m') →
  let c := fst (fst (New ctx h)) in
  let h1 := snd (New ctx h) in
  Get c k h1 = (VNil, false)
  ∧ Get ctx' k h1 = Get ctx' k h
  ∧ fst (Set_ c key val h1) = None
  ∧ Get ctx' k (snd (Set_ c key val h1)) = Get ctx' k h.
Proof.
  intros Hc Hc' [s Hs] c h1. subst c h1. unfold New, new_Map. rewrite Hc. simpl.
  set (l := fresh (dom h)).
  assert (Hne : m' ≠ l).
  { intros ->. pose proof (new_Map_fresh h) as Hf. fold l in Hf. congruence. }
  assert (Hcl : cache (WithValue ctx ctxKey (CStore l)) = Some l) by done.
  assert (Hk : deref (<[l := ∅]> h) l !! key = None)
    by (by rewrite deref_insert_eq).
  split.
  { rewrite (Get_bound _ _ _ _ Hcl), deref_insert_eq. done. }
  split; [by apply (Get_other_store _ m')|].
  rewrite (Set_unbound _ _ _ _ _ Hcl Hk). simpl. split; [done|].
  rewrite (Get_other_store _ m') by done. by apply (Get_other_store _ m').
Qed.

Lemma New_store_is_private_witness :
  Get (fst (fst (New Background heap0))) "a" (snd (New Background heap0))
    = (VNil, false)
  ∧ Get ctx0 "a" (snd (New Background heap0)) = Get ctx0 "a" heap0.
Proof.
  destruct (New_store_is_private Background ctx0 "a" "a" (VString "n") heap0
              0%nat eq_refl eq_refl) as (H1 & H2 & _).
  - by eexists.
  - split; [exact H1|exact H2].
Defined.

(** *** Copy *)

Lemma copy_all (m c : SyncMap) :
  map_fold (λ k v s, <[k := v]> s) c m = m ∪ c.
Proof.
  apply (map_fold_weak_ind (λ r m, r = m ∪ c)).
  - symmetry. apply (left_id_L ∅ (∪)).
  - intros i x m' r Hi ->. by rewrite insert_union_l.
Qed.

Lemma copy_keys_frame (m : SyncMap) (dest : Context) (l : loc)
  (keys : list string) :
  cache dest = Some l →
  ∀ (h : Heap) (l' : loc),
    l' ≠ l → snd (copy_keys m dest keys h) !! l' = h !! l'.
Proof.
  intros Hc. induction keys as [|key keys IH]; intros h l' Hne; [done|].
  simpl. unfold sm_Load. destruct (m !! key) as [v|]; [|by apply IH].
  destruct (deref h l !! key) as [old|] eqn:Hk.
  - by rewrite (Set_bound _ _ _ _ _ _ Hc Hk).
  - rewrite (Set_unbound _ _ _ _ _ Hc Hk). rewrite IH by done.
    by rewrite lookup_insert_ne.
Qed.

(** What [Copy] does to the heap, whatever the keys: it allocates the
    location that was free and writes nowhere else. *)
Lemma Copy_shape (src : Context) (keys : list string) (h : Heap) (ml : loc) :
  cache src = Some ml →
  (∀ dest, fst (fst (Copy src keys h)) = Some dest →
           dest = WithValue Background ctxKey (CStore (fresh (dom h))))
  ∧ (∀ l', l' ≠ fresh (dom h) → snd (Copy src keys h) !! l' = h !! l').
Proof.
  intros Hc. unfold Copy. rewrite Hc.
  change (New Background h)
    with (WithValue Background ctxKey (CStore (fresh (dom h))), false,
          <[fresh (dom h) := ∅]> h).
  set (l := fresh (dom h)). set (dest := WithValue Background ctxKey (CStore l)).
  destruct keys as [|key keys'].
  - change (cache dest) with (Some l). simpl. split; [by intros ? [= <-]|].
    intros l' Hne. by rewrite !lookup_insert_ne.
  - pose proof (copy_keys_frame (deref h ml) dest l (key :: keys') eq_refl
                  (<[l := ∅]> h)) as Hframe.
    destruct (copy_keys (deref h ml) dest (key :: keys') (<[l := ∅]> h))
      as [[e|] h2]; simpl in *.
    + split; [done|]. intros l' Hne. rewrite Hframe by done.
      by rewrite lookup_insert_ne.
    + split; [by intros ? [= <-]|]. intros l' Hne. rewrite Hframe by done.
      by rewrite lookup_insert_ne.
Qed.

(** [Copy] without keys copies the whole store: the result is a context
    derived from [context.Background] alone, whose store was allocated by the
    call and binds what the store of the source binds, key by key; the
    stores that existed before are unchanged. *)
Theorem Copy_without_keys (src : Context) (h : Heap) (ml : loc) :
  cache src = Some ml →
  ∃ l h', Copy src [] h
          = (Some (WithValue Background ctxKey (CStore l)), None, h')
        ∧ h !! l = None
        ∧ deref h' l = deref h ml
        ∧ (∀ k, Get (WithValue Background ctxKey (CStore l)) k h' = Get src k h)
        ∧ (∀ l', is_Some (h !! l') → h' !! l' = h !! l').
Proof.
  intros Hc. unfold Copy. rewrite Hc.
  change (New Background h)
    with (WithValue Background ctxKey (CStore (fresh (dom h))), false,
          <[fresh (dom h) := ∅]> h).
  set (l := fresh (dom h)).
  change (cache (WithValue Background ctxKey (CStore l))) with (Some l).
  eexists l, _. split; [done|]. split; [apply new_Map_fresh|].
  assert (Hd : deref (<[l := map_fold (λ k v s, <[k := v]> s)
                                (deref (<[l := ∅]> h) l) (deref h ml)]>
                        (<[l := ∅]> h)) l = deref h ml).
  { rewrite !deref_insert_eq, copy_all. apply (right_id_L ∅ (∪)). }
  split; [exact Hd|]. split.
  - intros k. unfold Get. change (cache (WithValue Background ctxKey (CStore l)))
      with (Some l). by rewrite Hc, Hd.
  - intros l' [s Hs]. rewrite !lookup_insert_ne; [done|..];
      intros <-; pose proof (new_Map_fresh h) as Hf; fold l in Hf; congruence.
Qed.

Lemma Copy_without_keys_witness :
  ∃ l h', Copy ctx0 [] heap1
          = (Some (WithValue Background ctxKey (CStore l)), None, h')
        ∧ deref h' l = deref heap1 0%nat.
Proof.
  destruct (Copy_without_keys ctx0 heap1 0%nat eq_refl)
    as (l & h' & HC & _ & Hd & _).
  exists l, h'. split; [exact HC|exact Hd].
Defined.

(** The context that [Copy] returns is independent of its source: a [Set]
    or a [Delete] through either of the two contexts leaves what the other
    one reads unchanged. *)
Theorem Copy_is_independent
  (src dest : Context) (keys : list string) (key k : string) (val : Value)
  (h : Heap) (ml : loc) :
  cache src = Some ml →
  is_Some (h !! ml) →
  fst (fst (Copy src keys h)) = Some dest →
  let h' := snd (Copy src keys h) in
  Get src k h' = Get src k h
  ∧ Get src k (snd (Set_ dest key val h')) = Get src k h
  ∧ Get src k (Delete dest key h') = Get src k h
  ∧ Get dest k (snd (Set_ src key val h')) = Get dest k h'
  ∧ Get dest k (Delete src key h') = Get dest k h'.
Proof.
  intros Hc [s Hs] Hdest h'. subst h'.
  destruct (Copy_shape src keys h ml Hc) as [Hshape Hframe].
  specialize (Hshape dest Hdest). subst dest.
  set (l := fresh (dom h)) in *.
  set (dest := WithValue Background ctxKey (CStore l)).
  assert (Hne : ml ≠ l).
  { intros ->. pose proof (new_Map_fresh h) as Hf. fold l in Hf. congruence. }
  assert (Hcd : cache dest = Some l) by done.
  assert (Hsrc : ∀ k, Get src k (snd (Copy src keys h)) = Get src k h).
  { intros k'. unfold Get. rewrite Hc. unfold deref. by rewrite Hframe. }
  split; [apply Hsrc|].
  destruct (Set_Delete_frame dest src key k val (snd (Copy src keys h)) l Hcd)
    as [_ H1].
  destruct (H1 ml Hc Hne) as [H1a H1b].
  destruct (Set_Delete_frame src dest key k val (snd (Copy src keys h)) ml Hc)
    as [_ H2].
  destruct (H2 l Hcd (not_eq_sym Hne)) as [H2a H2b].
  rewrite H1a, H1b, Hsrc. done.
Qed.

Lemma Copy_is_independent_witness :
  Get ctx0 "a" (snd (Set_ (WithValue Background ctxKey (CStore 1%nat)) "a"
                       (VString "z") (snd (Copy ctx0 ["b"] heap1))))
  = Get ctx0 "a" heap1.
Proof.
  apply (Copy_is_independent ctx0 (WithValue Background ctxKey (CStore 1%nat))
           ["b"] "a" "a" (VString "z") heap1 0%nat eq_refl).
  - by eexists.
  - reflexivity.
Defined.

(** *** Range *)





End KnifeMore.

(* ===================================================================== *)
(** ** More properties of package apcu *)
(* ===================================================================== *)

Module ApcuMore.
Import apcu ApcuFacts Fixtures.

Section WithJSON.
Variable Unmarshal : string → GoType → option Data.

(** *** Store, then Load *)

Lemma options_last_TTL (opts : list StoreOption) (ttl : Z) (arg : StoreArg) :
  foldl (λ arg opt, opt arg) arg (opts ++ [TTL ttl]) = {| arg_TTL := ttl |}.
Proof. by rewrite foldl_app. Qed.

Lemma Store_item (ctx : knife.Context) (k key : string) (val : Value)
  (opts : list StoreOption) (ttl now : Time) (w : World) :
  getKey ctx k w = (key, None) →
  Store ctx k val (opts ++ [TTL ttl]) now w
  = (None,
     with_cache (<[key := {| source := val;
                             expireAt := if 0 <? ttl then now + ttl else 0 |}]>
                   (cache w)) w).
Proof. intros Hk. unfold Store. by rewrite options_last_TTL, Hk. Qed.

Lemma load_live_value (key : string) (t : GoType) (d : Data) (e now : Time)
  (c : gmap string cacheItem) :
  c !! key = Some {| source := VOther t d; expireAt := e |} →
  e = 0 ∨ now ≤ e →
  load Unmarshal key (OutPtr t) now c = (hit t d, c).
Proof.
  intros Hc He. unfold load. rewrite Hc. simpl.
  pose proof (not_expired now {| source := VOther t d; expireAt := e |} He) as Hn.
  simpl in Hn. rewrite Hn. by rewrite decide_True.
Qed.

(** A value whose type is neither string nor [reflect.Value], stored
    without a time to live, is loaded back, at any later time and through
    any context that resolves to the same entry, into a pointer to its own
    type; the [Load] leaves the cache as the [Store] left it.  A [Store] over
    an older entry, a tombstone included, replaces it. *)
Theorem Store_then_Load
  (ctx1 ctx2 : knife.Context) (k1 k2 key : string) (t : GoType) (d : Data)
  (now now' : Time) (w : World) :
  other_type t →
  getKey ctx1 k1 w = (key, None) →
  getKey ctx2 k2 w = (key, None) →
  let w1 := snd (Store ctx1 k1 (VOther t d) [] now w) in
  fst (Store ctx1 k1 (VOther t d) [] now w) = None
  ∧ fst (Load Unmarshal ctx2 k2 (OutPtr t) now' w1) = hit t d
  ∧ cache (snd (Load Unmarshal ctx2 k2 (OutPtr t) now' w1)) = cache w1.
Proof.
  intros _ Hk1 Hk2 w1. subst w1. unfold Store. rewrite Hk1. simpl.
  split; [done|].
  destruct (Load_resolved Unmarshal ctx2 k2 key (OutPtr t) now'
              (with_cache (<[key := {| source := VOther t d; expireAt := 0 |}]>
                             (cache w)) w) Hk2) as [-> ->].
  simpl. rewrite (load_live_value key t d 0 now'); [done| |by left].
  apply lookup_insert_eq.
Qed.

(** The time to live is the one of the last [TTL] option.  For a positive
    time to live, a value whose type is neither string nor [reflect.Value],
    stored at [now], is loaded back at every time up to and including
    [now + ttl]; after that a [Load] returns [(false, nil)] and leaves a
    tombstone that keeps the expiry.  A time to live that is not positive
    means no expiry. *)
Theorem TTL_expiry
  (ctx1 ctx2 : knife.Context) (k1 k2 key : string) (t : GoType) (d : Data)
  (opts : list StoreOption) (ttl now now' : Time) (w : World) :
  other_type t →
  getKey ctx1 k1 w = (key, None) →
  getKey ctx2 k2 w = (key, None) →
  0 ≤ now →
  let w1 := snd (Store ctx1 k1 (VOther t d) (opts ++ [TTL ttl]) now w) in
  let r := Load Unmarshal ctx2 k2 (OutPtr t) now' w1 in
  (ttl ≤ 0 → fst r = hit t d)
  ∧ (0 < ttl → now' ≤ now + ttl → fst r = hit t d)
  ∧ (0 < ttl → now + ttl < now' →
     fst r = miss
     ∧ cache (snd r) !! key = Some {| source := VNil; expireAt := now + ttl |}).
Proof.
  intros _ Hk1 Hk2 Hnow w1 r. subst r w1.
  rewrite (Store_item _ _ _ _ _ _ _ _ Hk1).
  simpl.
  set (c1 := <[key := _]> (cache w)).
  destruct (Load_resolved Unmarshal ctx2 k2 key (OutPtr t) now' (with_cache c1 w) Hk2)
    as [-> ->]. simpl.
  assert (Hc1 : c1 !! key
                = Some {| source := VOther t d;
                          expireAt := if 0 <? ttl then now + ttl else 0 |})
    by apply lookup_insert_eq.
  split; [|split].
  - intros Httl. rewrite (load_live_value key t d _ now' c1 Hc1); [done|].
    left. destruct (0 <? ttl) eqn:E; [|done]. apply Z.ltb_lt in E. lia.
  - intros Httl Hle. rewrite (load_live_value key t d _ now' c1 Hc1); [done|].
    right. apply Z.ltb_lt in Httl. by rewrite Httl.
  - intros Httl Hgt.
    destruct (load_expired Unmarshal key (OutPtr t) now' c1 _ Hc1) as [Hm Ht];
      simpl; apply Z.ltb_lt in Httl; rewrite ?Httl; try lia.
    simpl in Ht. rewrite Httl in Ht. done.
Qed.

(** *** Delete, then Load *)

(** After [Delete], a [Load] through any context that resolves to the same
    entry returns [(false, nil)] whatever [out] is; the entries with other
    names stay. *)
Theorem Delete_then_Load
  (ctx1 ctx2 : knife.Context) (k1 k2 key : string) (out : OutArg)
  (now : Time) (w : World) :
  getKey ctx1 k1 w = (key, None) →
  getKey ctx2 k2 w = (key, None) →
  fst (Load Unmarshal ctx2 k2 out now (Delete ctx1 k1 w)) = miss
  ∧ cache (snd (Load Unmarshal ctx2 k2 out now (Delete ctx1 k1 w))) !! key = None
  ∧ (∀ k, k ≠ key → cache (Delete ctx1 k1 w) !! k = cache w !! k).
Proof.
  intros Hk1 Hk2. unfold Delete. rewrite Hk1.
  destruct (Load_resolved Unmarshal ctx2 k2 key out now
              (with_cache (delete key (cache w)) w) Hk2) as [-> ->].
  simpl. unfold load. rewrite lookup_delete_eq. simpl.
  split; [done|]. split; [apply lookup_delete_eq|].
  intros k Hne. by rewrite lookup_delete_ne.
Qed.

(** *** What Load does to the cache *)

Lemma load_keeps_expiry (key k : string) (out : OutArg) (now : Time)
  (c : gmap string cacheItem) :
  expireAt <$> snd (load Unmarshal key out now c) !! k = expireAt <$> c !! k.
Proof.
  destruct (decide (k = key)) as [->|Hne].
  2:{ by rewrite load_frame. }
  unfold load. destruct (c !! key) as [item|] eqn:Hc;
    [|simpl; by rewrite Hc].
  destruct (source item); [simpl; by rewrite Hc|..];
    (destruct (negb (IsZero (expireAt item)) && After now (expireAt item));
     [simpl; by rewrite lookup_insert_eq|]);
    (destruct out as [| | |elem]; [simpl; by rewrite Hc..|]).
  - destruct (Unmarshal s elem); [simpl; by rewrite lookup_insert_eq|].
    destruct (kindIsString elem); simpl; by rewrite Hc.
  - case_decide; simpl; by rewrite Hc.
  - case_decide; simpl; by rewrite Hc.
  - simpl; by rewrite Hc.
  - case_decide; simpl; by rewrite Hc.
Qed.

(** [Load] never adds a key to the cache, never removes one and never
    changes the expiry of an entry, whatever it returns. *)
Theorem Load_keeps_keys_and_expiry
  (ctx : knife.Context) (key k : string) (out : OutArg) (now : Time) (w : World) :
  expireAt <$> cache (snd (Load Unmarshal ctx key out now w)) !! k
  = expireAt <$> cache w !! k.
Proof.
  unfold Load. destruct (getKey ctx key w) as [key' [e|]].
  - simpl. by destruct (record_load_cache key' (fail e) w) as (-> & _).
  - destruct (load Unmarshal key' out now (cache w)) as [r c] eqn:Hl. simpl.
    destruct (record_load_cache key' r (with_cache c w)) as (-> & _). simpl.
    pose proof (load_keeps_expiry key' k out now (cache w)) as H.
    by rewrite Hl in H.
Qed.

(** [out] is looked at last.  A [Load] that resolves to no entry returns
    [(false, nil)] whatever [out] is, a nil interface included, and changes
    nothing in the cache; a [Load] that finds an entry which is not expired
    and not nil refuses an [out] that is not a non-nil pointer, and changes
    nothing in the cache either. *)
Theorem Load_checks_out_last
  (ctx : knife.Context) (k key : string) (out : OutArg) (now : Time) (w : World) :
  getKey ctx k w = (key, None) →
  (cache w !! key = None →
   fst (Load Unmarshal ctx k out now w) = miss
   ∧ cache (snd (Load Unmarshal ctx k out now w)) = cache w)
  ∧ (∀ item, cache w !! key = Some item → source item ≠ VNil →
       expireAt item = 0 ∨ now ≤ expireAt item →
       (∀ elem, out ≠ OutPtr elem) →
       fst (Load Unmarshal ctx k out now w) = fail ErrOutNotPtr
       ∧ cache (snd (Load Unmarshal ctx k out now w)) = cache w).
Proof.
  intros Hk. destruct (Load_resolved Unmarshal ctx k key out now w Hk) as [-> ->].
  split.
  - intros Hc. unfold load. by rewrite Hc.
  - intros item Hc Hsrc Hlive Hout. unfold load. rewrite Hc.
    rewrite (not_expired now item Hlive).
    destruct (source item); [done|..];
      (destruct out as [| | |elem]; [done..|]); by destruct (Hout elem).
Qed.

(** A [Load] that finds an entry which is not expired changes the cache in
    one case only, a string that decodes into the type [out] points to: when
    the source is not a string, or does not decode, the cache is left as it
    was; the string that is handed out raw is not cached. *)
Theorem Load_writes_only_decoded
  (ctx : knife.Context) (k key : string) (out : OutArg) (now : Time)
  (w : World) (item : cacheItem) :
  getKey ctx k w = (key, None) →
  cache w !! key = Some item →
  expireAt item = 0 ∨ now ≤ expireAt item →
  (∀ s elem, source item = VString s → out = OutPtr elem →
             Unmarshal s elem = None) →
  cache (snd (Load Unmarshal ctx k out now w)) = cache w.
Proof.
  intros Hk Hc Hlive Hdec.
  rewrite (proj2 (Load_resolved Unmarshal ctx k key out now w Hk)).
  unfold load. rewrite Hc. rewrite (not_expired now item Hlive).
  destruct (source item) as [|s|t d|t d| |t d] eqn:Hs; [done|..];
    (destruct out as [| | |elem]; [done..|]).
  - rewrite (Hdec s elem eq_refl eq_refl). by destruct (kindIsString elem).
  - by case_decide.
  - by case_decide.
  - done.
  - by case_decide.
Qed.

(** A string that decoded once is not decoded again: after a [Load] that
    decoded the text into [elem], the entry holds the decoded value, and
    every later [Load] into a pointer to [elem] returns that value, whatever
    the decoder would now say, and leaves the cache as it is. *)
Theorem decoded_once
  (ctx : knife.Context) (k key s : string) (elem : GoType) (d : Data)
  (now now' : Time) (w : World) (item : cacheItem)
  (Unmarshal' : string → GoType → option Data) :
  getKey ctx k w = (key, None) →
  cache w !! key = Some item →
  source item = VString s →
  expireAt item = 0 ∨ now' ≤ expireAt item →
  now ≤ now' →
  Unmarshal s elem = Some d →
  let w1 := snd (Load Unmarshal ctx k (OutPtr elem) now w) in
  fst (Load Unmarshal ctx k (OutPtr elem) now w) = hit elem d
  ∧ cache w1 !! key
    = Some {| source := VReflect elem d; expireAt := expireAt item |}
  ∧ fst (Load Unmarshal' ctx k (OutPtr elem) now' w1) = hit elem d
  ∧ cache (snd (Load Unmarshal' ctx k (OutPtr elem) now' w1)) = cache w1.
Proof.
  intros Hk Hc Hs Hlive Hle Hd w1. subst w1.
  assert (Hlive0 : expireAt item = 0 ∨ now ≤ expireAt item)
    by (destruct Hlive; [by left|right; lia]).
  assert (Hk' : getKey ctx k (snd (Load Unmarshal ctx k (OutPtr elem) now w))
                = (key, None)) by (by rewrite getKey_after_Load).
  destruct (Load_resolved Unmarshal' ctx k key (OutPtr elem) now' _ Hk') as [-> ->].
  destruct (Load_resolved Unmarshal ctx k key (OutPtr elem) now w Hk) as [-> ->].
  assert (Hl : load Unmarshal key (OutPtr elem) now (cache w)
               = (hit elem d,
                  <[key := {| source := VReflect elem d;
                              expireAt := expireAt item |}]> (cache w))).
  { unfold load. rewrite Hc, Hs, (not_expired now item Hlive0). by rewrite Hd. }
  rewrite Hl. simpl. split; [done|]. split; [apply lookup_insert_eq|].
  unfold load. rewrite lookup_insert_eq. simpl.
  pose proof (not_expired now' item Hlive) as Hn. rewrite Hn.
  by rewrite decide_True.
Qed.

(** A stored nil is never loaded: after a [Store] of a nil value, with any
    options, a [Load] of the entry returns [(false, nil)] at any time and for
    any [out], and leaves the entry in the cache. *)
Theorem Store_nil_is_a_miss
  (ctx1 ctx2 : knife.Context) (k1 k2 key : string) (opts : list StoreOption)
  (out : OutArg) (now now' : Time) (w : World) :
  getKey ctx1 k1 w = (key, None) →
  getKey ctx2 k2 w = (key, None) →
  let w1 := snd (Store ctx1 k1 VNil opts now w) in
  fst (Load Unmarshal ctx2 k2 out now' w1) = miss
  ∧ cache (snd (Load Unmarshal ctx2 k2 out now' w1)) = cache w1
  ∧ is_Some (cache w1 !! key).
Proof.
  intros Hk1 Hk2 w1. subst w1.
  destruct (Store_resolved ctx1 k1 key VNil opts now w Hk1) as [e ->]. simpl.
  destruct (Load_resolved Unmarshal ctx2 k2 key out now'
              (with_cache (<[key := {| source := VNil; expireAt := e |}]>
                             (cache w)) w) Hk2) as [-> ->].
  simpl. rewrite (load_tombstone Unmarshal key out now' e);
    [|apply lookup_insert_eq].
  split; [done|]. split; [done|]. rewrite lookup_insert_eq. by eexists.
Qed.

(** *** Recording *)

(** With record mode on, a [Load] that returns no error hands the recorder
    one Action: protocol APCU, the resolved key as request and, when nothing
    was found, the empty-value marker as response.  A [Load] that returns an
    error records nothing, and nothing is recorded with record mode off.
    [Store] and [Delete] never record. *)
Theorem Load_records
  (ctx : knife.Context) (k : string) (out : OutArg) (now : Time) (w : World)
  (val : Value) (opts : list StoreOption) :
  let r := fst (Load Unmarshal ctx k out now w) in
  let w' := snd (Load Unmarshal ctx k out now w) in
  (RecordMode w = false → recorded w' = recorded w)
  ∧ (is_Some (err r) → recorded w' = recorded w)
  ∧ (∀ key, RecordMode w = true → getKey ctx k w = (key, None) →
       err r = None → ok r = false →
       recorded w'
       = recorded w ++ [{| rec_Protocol := fastdev.APCU; rec_Request := key;
                           rec_Response := VString EmptyValue |}])
  ∧ (∀ key t d, RecordMode w = true → getKey ctx k w = (key, None) →
       r = hit t d →
       recorded w'
       = recorded w ++ [{| rec_Protocol := fastdev.APCU; rec_Request := key;
                           rec_Response := VOther (TPtr t) d |}])
  ∧ recorded (snd (Store ctx k val opts now w)) = recorded w
  ∧ recorded (Delete ctx k w) = recorded w.
Proof.
  intros r w'. subst r w'. unfold Load, Store, Delete.
  destruct (getKey ctx k w) as [key' [e|]].
  - simpl. repeat split; try done; intros; discriminate.
  - destruct (load Unmarshal key' out now (cache w)) as [r c]. simpl.
    unfold record_load. simpl.
    split; [by intros ->; destruct (err r)|].
    split; [by intros [e ->]|].
    split.
    { intros key -> [= <-] -> ->. by destruct (written r) as [[? ?]|]. }
    split; [|done].
    intros key t d -> [= <-] ->. done.
Qed.

(** *** Range *)


End WithJSON.

Lemma Load_checks_out_last_witness :
  fst (Load tinyJSON knife.Background "none" OutNil 0 wBool) = miss
  ∧ fst (Load tinyJSON knife.Background "k" (OutNotPtr TBool) 0 wBool)
    = fail ErrOutNotPtr.
Proof.
  split.
  - apply (proj1 (Load_checks_out_last tinyJSON knife.Background "none" "none"
                    OutNil 0 wBool eq_refl)).
    reflexivity.
  - apply (proj2 (Load_checks_out_last tinyJSON knife.Background "k" "k"
                    (OutNotPtr TBool) 0 wBool eq_refl)
             {| source := VOther TBool (DBool true); expireAt := 0 |});
      [reflexivity|discriminate|by left|discriminate].
Defined.

Lemma Load_writes_only_decoded_witness :
  cache (snd (Load tinyJSON knife.Background "k" (OutPtr TString) 4 wText))
  = cache wText.
Proof.
  apply (Load_writes_only_decoded tinyJSON knife.Background "k" "k"
           (OutPtr TString) 4 wText {| source := VString "1"; expireAt := 0 |});
    [reflexivity|reflexivity|by left|].
  intros s elem [= <-] [= <-]. reflexivity.
Defined.

Lemma decoded_once_witness :
  fst (Load tinyJSON knife.Background "k" (OutPtr TInt) 1 wText)
    = hit TInt (DInt 1)
  ∧ fst (Load noJSON knife.Background "k" (OutPtr TInt) 2
           (snd (Load tinyJSON knife.Background "k" (OutPtr TInt) 1 wText)))
    = hit TInt (DInt 1).
Proof.
  destruct (decoded_once tinyJSON knife.Background "k" "k" "1" TInt (DInt 1)
              1 2 wText {| source := VString "1"; expireAt := 0 |} noJSON)
    as (H1 & _ & H2 & _);
    [reflexivity|reflexivity|reflexivity|by left|lia|reflexivity|].
  split; [exact H1|exact H2].
Defined.

Lemma Load_records_witness :
  recorded (snd (Load tinyJSON knife.Background "none" (OutPtr TBool) 0 wRec))
  = [{| rec_Protocol := fastdev.APCU; rec_Request := "none";
        rec_Response := VString EmptyValue |}]
  ∧ recorded (snd (Load tinyJSON knife.Background "k" OutNil 0 wRec)) = [].
Proof.
  split.
  - apply (proj1 (proj2 (proj2 (Load_records tinyJSON knife.Background "none"
                                  (OutPtr TBool) 0 wRec VNil [])))
             "none"); reflexivity.
  - apply (proj1 (proj2 (Load_records tinyJSON knife.Background "k" OutNil 0
                           wRec VNil []))).
    by eexists.
Defined.

Lemma Store_nil_is_a_miss_witness :
  fst (Load tinyJSON knife.Background "k" (OutPtr TBool) 9
         (snd (Store knife.Background "k" VNil [TTL 5] 1 wBool)))
  = miss.
Proof.
  apply (Store_nil_is_a_miss tinyJSON knife.Background knife.Background
           "k" "k" "k" [TTL 5] (OutPtr TBool) 1 9 wBool); reflexivity.
Defined.

Lemma Store_then_Load_witness :
  fst (Load tinyJSON ctxA "a" (OutPtr TInt) 99
         (snd (Store ctxA "a" (VOther TInt (DInt 7)) [] 3 wR)))
  = hit TInt (DInt 7).
Proof.
  apply (Store_then_Load tinyJSON ctxA ctxA "a" "a" ("s" +:+ "a") TInt (DInt 7)
           3 99 wR); [split; discriminate|reflexivity..].
Defined.

Lemma TTL_expiry_witness :
  fst (Load tinyJSON knife.Background "k" (OutPtr TInt) 15
         (snd (Store knife.Background "k" (VOther TInt (DInt 7))
                 [TTL 100; TTL 10] 5 (wOff ∅))))
  = hit TInt (DInt 7)
  ∧ fst (Load tinyJSON knife.Background "k" (OutPtr TInt) 16
           (snd (Store knife.Background "k" (VOther TInt (DInt 7))
                   [TTL 100; TTL 10] 5 (wOff ∅))))
    = miss.
Proof.
  split.
  - apply (proj1 (proj2 (TTL_expiry tinyJSON knife.Background knife.Background
                           "k" "k" "k" TInt (DInt 7) [TTL 100] 10 5 15 (wOff ∅)
                           ltac:(split; discriminate)
                           eq_refl eq_refl ltac:(lia))));
      lia.
  - apply (proj2 (proj2 (TTL_expiry tinyJSON knife.Background knife.Background
                           "k" "k" "k" TInt (DInt 7) [TTL 100] 10 5 16 (wOff ∅)
                           ltac:(split; discriminate)
                           eq_refl eq_refl ltac:(lia))));
      lia.
Defined.

Lemma Delete_then_Load_witness :
  fst (Load tinyJSON knife.Background "k" OutNil 0
         (Delete knife.Background "k" wBool))
  = miss.
Proof.
  apply (Delete_then_Load tinyJSON knife.Background knife.Background "k" "k" "k"
           OutNil 0 wBool); reflexivity.
Defined.

End ApcuMore.
